(** * Minimum dominating set through an integer linear program

    A shallow embedding of [main.py]: [read_graph_from_csv] builds a NetworkX
    graph from the rows of a CSV file, and [find_minimum_dominating_set] states
    the minimum dominating set problem as a 0/1 linear program and hands it to
    PuLP's solver.

    The two libraries are modelled as far as the program uses them.
    - NetworkX: a [Graph] is the pair of dictionaries [_node] and [_adj]; a
      Python dictionary is an association list in insertion order.  The graph
      object is the state of a small state-and-exception monad [M]:
      [add_edge] writes it, [G_nodes] and [G_neighbors] read it.
    - PuLP: a problem is an objective and a dictionary of named constraints
      over variables indexed by the vertices.  PuLP replaces by [_] each of
      the characters [-+[] ->/] in the name of a variable ([pulp_name]) and
      each of the characters [-+[] ] in the name of a constraint
      ([expression_name]), and raises [PulpError] when a constraint is added
      under a name the problem has already ([add_constraint]).  The solver is
      a parameter [solve], which gives every variable an integer value; the
      theorems assume of it only that it is exact on feasible 0/1 programs
      whose variables have distinct names ([exact_solver]), and
      [brute_force_solve] shows that such a solver exists.  Two vertices
      whose names differ only where one of them has [>] or [/] get
      constraints of distinct names and variables of one name: of a call on
      such a graph the theorems say nothing.
    - The CSV file is the list of its records as [csv.reader] splits them,
      of which [csv.DictReader] makes the rows ([DictReader]); a file all of
      whose records have the three columns the program reads is the list of
      its rows ([Row]).  Python's [float] is a parameter. *)

From Stdlib Require Import ZArith Lia Ascii String.
From stdpp Require Import base decidable option list strings.

Local Open Scope Z_scope.
Local Open Scope nat_scope.

(** ** Python exceptions the program can raise *)

Inductive exn : Type :=
| KeyError
| ValueError
| TypeError
| NetworkXError
| PulpError.

(** ** Python dictionaries: association lists in insertion order *)

Abbreviation dict K A := (list (K * A)).

Section dict.
Context {K A : Type} `{EqDecision K}.

(** [d[k]], [None] standing for a missing key. *)
Fixpoint dict_get (d : dict K A) (k : K) : option A :=
  match d with
  | [] => None
  | (k', a) :: d' => if decide (k' = k) then Some a else dict_get d' k
  end.

(** [d[k] = a]: a key that is present keeps its place, a new key goes to
    the end. *)
Fixpoint dict_set (d : dict K A) (k : K) (a : A) : dict K A :=
  match d with
  | [] => [(k, a)]
  | (k', a') :: d' =>
      if decide (k' = k) then (k, a) :: d' else (k', a') :: dict_set d' k a
  end.

(** [list(d)], the keys in insertion order. *)
Definition dict_keys (d : dict K A) : list K := d.*1.

(** [k in d] *)
Definition dict_mem (d : dict K A) (k : K) : bool :=
  bool_decide (k ∈ dict_keys d).

Lemma dict_get_Some_keys d k a : dict_get d k = Some a → k ∈ dict_keys d.
Proof.
  induction d as [|[k' a'] d IH]; simpl; [done|].
  case_decide; subst; intros ?; [left | right; auto].
Qed.

Lemma dict_get_is_Some d k : k ∈ dict_keys d ↔ is_Some (dict_get d k).
Proof.
  split.
  - induction d as [|[k' a'] d IH]; simpl.
    + by intros ?%elem_of_nil.
    + intros Hin. case_decide; [by eexists|].
      apply elem_of_cons in Hin as [->|?]; [done | auto].
  - intros [a Ha]. by eapply dict_get_Some_keys.
Qed.

Lemma dict_get_None d k : k ∉ dict_keys d ↔ dict_get d k = None.
Proof. rewrite dict_get_is_Some, eq_None_not_Some. done. Qed.

Lemma dict_keys_set_in d k a : k ∈ dict_keys d → dict_keys (dict_set d k a) = dict_keys d.
Proof.
  induction d as [|[k' a'] d IH]; simpl.
  - by intros ?%elem_of_nil.
  - intros Hin. case_decide; subst; simpl; [done|].
    f_equal. apply IH. apply elem_of_cons in Hin as [->|?]; done.
Qed.

Lemma dict_keys_set_notin d k a :
  k ∉ dict_keys d → dict_keys (dict_set d k a) = dict_keys d ++ [k].
Proof.
  induction d as [|[k' a'] d IH]; simpl; [done|].
  intros Hin. apply not_elem_of_cons in Hin as [? ?].
  case_decide; [congruence|]. simpl. f_equal. auto.
Qed.

Lemma dict_keys_set_elem d k a k' :
  k' ∈ dict_keys (dict_set d k a) ↔ k' = k ∨ k' ∈ dict_keys d.
Proof.
  destruct (decide (k ∈ dict_keys d)) as [Hin|Hin].
  - rewrite dict_keys_set_in by done. split; [by right | by intros [->|?]].
  - rewrite dict_keys_set_notin by done. rewrite elem_of_app, list_elem_of_singleton.
    tauto.
Qed.

Lemma dict_keys_set_NoDup d k a : NoDup (dict_keys d) → NoDup (dict_keys (dict_set d k a)).
Proof.
  intros Hnd. destruct (decide (k ∈ dict_keys d)) as [Hin|Hin].
  - by rewrite dict_keys_set_in by done.
  - rewrite dict_keys_set_notin by done. apply NoDup_app. split_and!; [done| |apply NoDup_singleton].
    intros x Hx ->%list_elem_of_singleton. done.
Qed.

Lemma dict_get_set_eq d k a : dict_get (dict_set d k a) k = Some a.
Proof.
  induction d as [|[k' a'] d IH]; simpl.
  - by rewrite decide_True.
  - case_decide; simpl; [by rewrite decide_True | by rewrite decide_False].
Qed.

Lemma dict_get_set_ne d k a k' : k ≠ k' → dict_get (dict_set d k a) k' = dict_get d k'.
Proof.
  intros Hne. induction d as [|[k0 a0] d IH]; simpl.
  - by rewrite decide_False.
  - case_decide; subst; simpl.
    + by rewrite !decide_False.
    + case_decide; done.
Qed.

Lemma dict_get_set d k a k' :
  dict_get (dict_set d k a) k' = if decide (k = k') then Some a else dict_get d k'.
Proof.
  case_decide; subst; [apply dict_get_set_eq | by apply dict_get_set_ne].
Qed.

(** Writing the value a key already has changes nothing. *)
Lemma dict_set_id d k a : dict_get d k = Some a → dict_set d k a = d.
Proof.
  induction d as [|[k' a'] d IH]; simpl; [done|].
  case_decide; subst; [congruence|]. intros ?. f_equal. auto.
Qed.

Lemma dict_set_set d k a b : dict_set (dict_set d k a) k b = dict_set d k b.
Proof.
  induction d as [|[k' a'] d IH]; simpl.
  - by rewrite decide_True.
  - case_decide; subst; simpl; [by rewrite decide_True|].
    rewrite decide_False by done. by f_equal.
Qed.
End dict.

(** ** NetworkX graphs *)

(** [nx.Graph]: [G_node] is the dictionary [_node] (a node's attributes, of
    which the program sets none) and [G_adj] the dictionary [_adj] of
    adjacency dictionaries, [_adj[u][v]] holding the weight of the edge
    between [u] and [v].  [V] is the type of the nodes and [W] the type of
    the weights (Python floats). *)
Record Graph (V W : Type) : Type := mkGraph {
  G_node : dict V unit;
  G_adj : dict V (dict V W)
}.
Arguments mkGraph {V W} _ _.
Arguments G_node {V W} _.
Arguments G_adj {V W} _.

(** [nx.Graph()] *)
Definition empty_graph {V W : Type} : Graph V W := mkGraph [] [].

(** ** Computations on a graph object

    A computation receives the graph object, returns a value or raises, and
    leaves the graph object in a new state. *)

Definition M (V W A : Type) : Type := Graph V W → (exn + A) * Graph V W.

Section monad.
Context {V W : Type}.

Definition ret {A} (a : A) : M V W A := λ G, (inr a, G).

Definition raise {A} (e : exn) : M V W A := λ G, (inl e, G).

Definition bind {A B} (m : M V W A) (k : A → M V W B) : M V W B :=
  λ G, match m G with
       | (inr a, G') => k a G'
       | (inl e, G') => (inl e, G')
       end.

(** A value, or the exception raised in its place. *)
Definition of_result {A} (r : exn + A) : M V W A :=
  match r with
  | inr a => ret a
  | inl e => raise e
  end.

(** The value of an optional result, raising [e] when there is none. *)
Definition or_raise {A} (e : exn) (o : option A) : M V W A :=
  match o with
  | Some a => ret a
  | None => raise e
  end.

Definition get_node : M V W (dict V unit) := λ G, (inr (G_node G), G).
Definition get_adj : M V W (dict V (dict V W)) := λ G, (inr (G_adj G), G).
Definition put_node (d : dict V unit) : M V W unit :=
  λ G, (inr (), mkGraph d (G_adj G)).
Definition put_adj (d : dict V (dict V W)) : M V W unit :=
  λ G, (inr (), mkGraph (G_node G) d).

End monad.

Notation "x <- m ;; k" := (bind m (λ x, k))
  (at level 100, m at next level, right associativity, only parsing).
Notation "m ;; k" := (bind m (λ _, k))
  (at level 100, k at level 200, right associativity, only parsing).

Section monad_loops.
Context {V W : Type}.

(** [for x in l: body x] *)
Fixpoint for_each {A} (l : list A) (body : A → M V W unit) : M V W unit :=
  match l with
  | [] => ret ()
  | x :: l' => body x ;; for_each l' body
  end.

(** [[f x for x in l]] *)
Fixpoint map_M {A B} (f : A → M V W B) (l : list A) : M V W (list B) :=
  match l with
  | [] => ret []
  | x :: l' => y <- f x;; ys <- map_M f l';; ret (y :: ys)
  end.

(** [[x for x in l if p x]] *)
Fixpoint filter_M {A} (p : A → M V W bool) (l : list A) : M V W (list A) :=
  match l with
  | [] => ret []
  | x :: l' => b <- p x;; xs <- filter_M p l';; ret (if b : bool then x :: xs else xs)
  end.

(** A loop that threads an accumulator, as [prob] is by [prob += ...]. *)
Fixpoint fold_M {A B} (f : B → A → M V W B) (b : B) (l : list A) : M V W B :=
  match l with
  | [] => ret b
  | x :: l' => b' <- f b x;; fold_M f b' l'
  end.

End monad_loops.

Section networkx.
Context {V W : Type} `{EqDecision V}.

(** The first half of [Graph.add_edge]: a node that is not in [_node] gets an
    empty adjacency dictionary and an empty attribute dictionary. *)
Definition add_node_if_missing (n : V) : M V W unit :=
  node <- get_node;;
  if dict_mem node n then ret ()
  else
    adj <- get_adj;;
    put_adj (dict_set adj n []);;
    node <- get_node;;
    put_node (dict_set node n ()).

(** [self._adj[u][v] = datadict] *)
Definition adj_setitem (u v : V) (datadict : W) : M V W unit :=
  adj <- get_adj;;
  adj_u <- or_raise KeyError (dict_get adj u);;
  put_adj (dict_set adj u (dict_set adj_u v datadict)).

(** [G.add_edge(u, v, weight=weight)].  The edge's attribute dictionary is
    the one already stored at [_adj[u][v]], or a new one, updated with the
    weight: either way it holds [weight] afterwards, so it is modelled by the
    weight itself.  NetworkX stores the same dictionary object at
    [_adj[u][v]] and at [_adj[v][u]]; both are written here. *)
Definition add_edge (u v : V) (weight : W) : M V W unit :=
  add_node_if_missing u;;
  add_node_if_missing v;;
  adj <- get_adj;;
  _ <- or_raise KeyError (dict_get adj u);;
  let datadict := weight in
  adj_setitem u v datadict;;
  adj_setitem v u datadict.

(** [G.nodes()] *)
Definition G_nodes : M V W (list V) :=
  node <- get_node;; ret (dict_keys node).

(** [G.neighbors(n)] *)
Definition G_neighbors (n : V) : M V W (list V) :=
  adj <- get_adj;;
  adj_n <- or_raise NetworkXError (dict_get adj n);;
  ret (dict_keys adj_n).

End networkx.

(** ** Reading the graph *)

(** A row of the CSV file as [csv.DictReader] yields it: the three columns
    the program reads, each a string.  These are the rows of a file whose
    header names the three columns and whose records have a field in each;
    the rows of any file are those of [DictReader] below. *)
Record Row : Type := mkRow {
  Source : string;
  Target : string;
  Weight : string
}.

Section read_graph.
Context {W : Type}.
(** Python's [float]: the number a string denotes, [None] when the string
    denotes none and [float] raises [ValueError]. *)
Variable float : string → option W.

(** The body of the loop over the rows. *)
Definition read_row (row : Row) : M string W unit :=
  weight <- or_raise ValueError (float (Weight row));;
  add_edge (Source row) (Target row) weight.

(** [read_graph_from_csv], on the rows of the file: the graph it returns, or
    the exception it raises. *)
Definition read_graph_from_csv (rows : list Row) : exn + Graph string W :=
  match for_each rows read_row empty_graph with
  | (inr _, G) => inr G
  | (inl e, _) => inl e
  end.

End read_graph.

(** ** PuLP problems *)

Inductive LpCategory : Type := LpContinuous | LpInteger | LpBinary.

Inductive LpSense : Type := LpMinimize | LpMaximize.

(** Python's [str] on the vertices; on the strings of a CSV file it is the
    identity. *)
Class PyStr (V : Type) : Type := py_str : V → string.

#[global] Instance string_PyStr : PyStr string := λ s, s.

(** The characters PuLP does not keep in the name of a variable
    ([LpElement.illegal_chars]): [-+[] ->/]. *)
Definition illegal_char (c : ascii) : bool :=
  existsb (Ascii.eqb c) (list_ascii_of_string "-+[] ->/").

(** The characters PuLP does not keep in the name of an expression or of a
    constraint ([LpAffineExpression.trans]): [-+[] ]. *)
Definition illegal_expression_char (c : ascii) : bool :=
  existsb (Ascii.eqb c) (list_ascii_of_string "-+[] ").

(** [str(name).translate(trans)]: every character that is not kept becomes
    an underscore. *)
Fixpoint translate (illegal : ascii → bool) (name : string) : string :=
  match name with
  | EmptyString => EmptyString
  | String c rest => String (if illegal c then "_"%char else c) (translate illegal rest)
  end.

(** The name PuLP gives to a variable that is created under [name]. *)
Definition pulp_name (name : string) : string := translate illegal_char name.

(** The name PuLP gives to a constraint that is added under [name]. *)
Definition expression_name (name : string) : string :=
  translate illegal_expression_char name.

(** [plp.LpVariable]: [var_name] is the name PuLP gives the variable and
    [var_index] the key under which [LpVariable.dicts] stores it. *)
Record LpVariable (V : Type) : Type := mkLpVariable {
  var_name : string;
  var_index : V;
  lowBound : Z;
  upBound : Z;
  cat : LpCategory
}.
Arguments mkLpVariable {V} _ _ _ _ _.
Arguments var_name {V} _.
Arguments var_index {V} _.
Arguments lowBound {V} _.
Arguments upBound {V} _.
Arguments cat {V} _.

(** [plp.LpAffineExpression]: the terms of a linear expression, each a
    variable and its coefficient. *)
Abbreviation LpAffineExpression V := (list (LpVariable V * Z)).

(** [plp.LpConstraint], of the only sense the program builds:
    [con_lhs >= con_rhs]. *)
Record LpConstraint (V : Type) : Type := mkLpConstraint {
  con_lhs : LpAffineExpression V;
  con_rhs : Z
}.
Arguments mkLpConstraint {V} _ _.
Arguments con_lhs {V} _.
Arguments con_rhs {V} _.

(** [plp.LpProblem]: [constraints] is the dictionary of the constraints by
    their names. *)
Record LpProblem (V : Type) : Type := mkLpProblem {
  prob_name : string;
  sense : LpSense;
  objective : LpAffineExpression V;
  constraints : dict string (LpConstraint V)
}.
Arguments mkLpProblem {V} _ _ _ _.
Arguments prob_name {V} _.
Arguments sense {V} _.
Arguments objective {V} _.
Arguments constraints {V} _.

Section pulp.
Context {V : Type} `{EqDecision V} `{PyStr V}.

(** [plp.LpVariable.dicts(name, indices, lowBound, upBound, cat)]: the
    variable of the index [i] is created under the name [name_str(i)]. *)
Definition LpVariable_dicts (name : string) (indices : list V)
    (lowBound upBound : Z) (cat : LpCategory) : dict V (LpVariable V) :=
  foldl (λ d i, dict_set d i
           (mkLpVariable (pulp_name (name +:+ "_" +:+ py_str i)) i lowBound upBound cat))
        [] indices.

(** [plp.lpSum] of variables: each with coefficient 1. *)
Definition lpSum (terms : list (LpVariable V)) : LpAffineExpression V :=
  map (λ x, (x, 1%Z)) terms.

(** [e + x] for a variable [x] *)
Definition expr_add_var (e : LpAffineExpression V) (x : LpVariable V) : LpAffineExpression V :=
  e ++ [(x, 1%Z)].

(** [prob += e, name] for an expression [e]: [e] becomes the objective. *)
Definition set_objective (prob : LpProblem V) (e : LpAffineExpression V) : LpProblem V :=
  mkLpProblem (prob_name prob) (sense prob) e (constraints prob).

(** [prob += c, name] for a constraint [c]: the constraint takes the name
    PuLP makes of [name]; a name that the problem has already raises
    [PulpError] ("overlapping constraint names"), a new one is stored. *)
Definition add_constraint (prob : LpProblem V) (name : string) (c : LpConstraint V) :
    exn + LpProblem V :=
  let name := expression_name name in
  if decide (name ∈ dict_keys (constraints prob)) then inl PulpError
  else inr (mkLpProblem (prob_name prob) (sense prob) (objective prob)
              (constraints prob ++ [(name, c)])).

(** The value of an expression when the variable of index [i] has the value
    [a i]. *)
Definition expr_value (a : V → Z) (e : LpAffineExpression V) : Z :=
  foldr (λ t s, (t.2 * a (var_index t.1) + s)%Z) 0%Z e.

(** The variables of a problem: those of its objective and constraints. *)
Definition lp_variables (P : LpProblem V) : list (LpVariable V) :=
  (objective P).*1 ++ flat_map (λ c, (con_lhs c.2).*1) (constraints P).

(** Every variable is a 0/1 variable. *)
Definition binary_problem (P : LpProblem V) : Prop :=
  ∀ x, x ∈ lp_variables P → cat x = LpBinary ∧ lowBound x = 0%Z ∧ upBound x = 1%Z.

(** [a] respects the bounds of the variables and satisfies the constraints. *)
Definition feasible (P : LpProblem V) (a : V → Z) : Prop :=
  (∀ x, x ∈ lp_variables P → (lowBound x ≤ a (var_index x) ≤ upBound x)%Z) ∧
  (∀ c, c ∈ constraints P → (con_rhs c.2 ≤ expr_value a (con_lhs c.2))%Z).

(** No two variables of the problem have the same name.  PuLP hands a
    problem to the solver, and reads the solution back, by the names of the
    variables. *)
Definition distinct_variable_names (P : LpProblem V) : Prop :=
  ∀ x y, x ∈ lp_variables P → y ∈ lp_variables P →
    var_name x = var_name y → var_index x = var_index y.

(** What the program relies on when it calls [prob.solve()] and reads the
    variables: on a minimisation problem over 0/1 variables of distinct
    names that has a solution, the values the solver leaves in the variables
    are a solution of least objective value. *)
Definition exact_solver (solve : LpProblem V → V → Z) : Prop :=
  ∀ P, sense P = LpMinimize → binary_problem P → distinct_variable_names P →
    (∃ b, feasible P b) →
    feasible P (solve P) ∧
    ∀ b, feasible P b → (expr_value (solve P) (objective P) ≤ expr_value b (objective P))%Z.

End pulp.

(** ** The solve operation *)

Section find_minimum_dominating_set.
Context {V W : Type} `{EqDecision V} `{PyStr V}.
(** [prob.solve()]: the value each variable holds once the problem is
    solved, by the index of the variable. *)
Variable solve : LpProblem V → V → Z.

(** [vertex_vars[i]] *)
Definition vertex_var (vertex_vars : dict V (LpVariable V)) (i : V) : M V W (LpVariable V) :=
  or_raise KeyError (dict_get vertex_vars i).

(** The body of the loop that adds the domination condition of vertex [i]. *)
Definition add_dominating_condition (vertex_vars : dict V (LpVariable V))
    (prob : LpProblem V) (i : V) : M V W (LpProblem V) :=
  nbrs <- G_neighbors i;;
  terms <- map_M (vertex_var vertex_vars) nbrs;;
  x_i <- vertex_var vertex_vars i;;
  of_result (add_constraint prob ("DominatingCondition_" +:+ py_str i)
               (mkLpConstraint (expr_add_var (lpSum terms) x_i) 1)).

Definition find_minimum_dominating_set : M V W (list V) :=
  (* prob = plp.LpProblem("MinimumDominatingSet", plp.LpMinimize) *)
  let prob := mkLpProblem "MinimumDominatingSet" LpMinimize [] [] in
  (* vertex_vars = plp.LpVariable.dicts("Vertex", G.nodes(), 0, 1, plp.LpBinary) *)
  nodes <- G_nodes;;
  let vertex_vars := LpVariable_dicts "Vertex" nodes 0 1 LpBinary in
  (* prob += plp.lpSum(vertex_vars[i] for i in G.nodes()), ... *)
  nodes <- G_nodes;;
  terms <- map_M (vertex_var vertex_vars) nodes;;
  let prob := set_objective prob (lpSum terms) in
  (* for i in G.nodes(): prob += ... >= 1, f"DominatingCondition_{i}" *)
  nodes <- G_nodes;;
  prob <- fold_M (add_dominating_condition vertex_vars) prob nodes;;
  (* prob.solve() *)
  let value := solve prob in
  (* [v for v in G.nodes() if plp.value(vertex_vars[v]) == 1] *)
  nodes <- G_nodes;;
  filter_M (λ v, x <- vertex_var vertex_vars v;;
                 ret (bool_decide (value (var_index x) = 1%Z))) nodes.

End find_minimum_dominating_set.

(** ** Vertices, neighbours and dominating sets *)

Section graph_view.
Context {V W : Type} `{EqDecision V}.

(** The vertices of [G], in the order [G.nodes()] yields them. *)
Definition nodes (G : Graph V W) : list V := dict_keys (G_node G).

(** The neighbours of [n], in the order [G.neighbors(n)] yields them. *)
Definition neighbors (G : Graph V W) (n : V) : list V :=
  match dict_get (G_adj G) n with
  | Some adj_n => dict_keys adj_n
  | None => []
  end.

(** The weight stored for the edge between [u] and [v], if there is one. *)
Definition edge_weight (G : Graph V W) (u v : V) : option W :=
  adj_u ← dict_get (G_adj G) u; dict_get adj_u v.

(** The invariant of a NetworkX graph that the solve operation depends on:
    the keys of [_node] are distinct, [_adj] has the same keys, and every
    neighbour is a node. *)
Definition wf_graph (G : Graph V W) : Prop :=
  NoDup (nodes G) ∧
  dict_keys (G_adj G) = nodes G ∧
  Forall (λ n, Forall (λ m, m ∈ nodes G) (neighbors G n)) (nodes G).

#[global] Instance wf_graph_dec G : Decision (wf_graph G).
Proof. unfold wf_graph. apply _. Defined.

(** [S] dominates [G]: every vertex is in [S] or has a neighbour in [S]. *)
Definition is_dominating_set (G : Graph V W) (S : list V) : Prop :=
  ∀ v, v ∈ nodes G → v ∈ S ∨ ∃ w, w ∈ neighbors G v ∧ w ∈ S.

(** The same, as a test. *)
Definition dominates (G : Graph V W) (S : list V) : bool :=
  forallb (λ v, bool_decide (v ∈ S) || existsb (λ w, bool_decide (w ∈ S)) (neighbors G v))
          (nodes G).

Lemma dominates_spec G S : dominates G S = true ↔ is_dominating_set G S.
Proof.
  unfold dominates, is_dominating_set. rewrite forallb_forall. split.
  - intros H v Hv. apply list_elem_of_In, H in Hv.
    apply orb_true_iff in Hv as [Hv|Hv].
    + left. by apply bool_decide_eq_true in Hv.
    + right. apply existsb_exists in Hv as (w & Hw & HS).
      exists w. split; [by apply list_elem_of_In|]. by apply bool_decide_eq_true in HS.
  - intros H v Hv. apply list_elem_of_In, H in Hv as [Hv|(w & Hw & HS)].
    + apply orb_true_iff. left. by apply bool_decide_eq_true.
    + apply orb_true_iff. right. apply existsb_exists.
      exists w. split; [by apply list_elem_of_In|]. by apply bool_decide_eq_true.
Qed.

Lemma wf_neighbors_nodes G n m : wf_graph G → m ∈ neighbors G n → m ∈ nodes G.
Proof.
  intros (_ & Hkeys & Hall) Hm.
  assert (n ∈ nodes G) as Hn.
  { rewrite <- Hkeys. unfold neighbors in Hm.
    destruct (dict_get (G_adj G) n) eqn:E; [|by apply elem_of_nil in Hm].
    by eapply dict_get_Some_keys. }
  rewrite Forall_forall in Hall. specialize (Hall n Hn).
  rewrite Forall_forall in Hall. auto.
Qed.

Lemma wf_adj_is_Some G n : wf_graph G → n ∈ nodes G → is_Some (dict_get (G_adj G) n).
Proof. intros (_ & Hkeys & _) Hn. apply dict_get_is_Some. by rewrite Hkeys. Qed.

End graph_view.

(** ** An exact solver

    Enumeration of all 0/1 assignments: the solver the theorems below are
    instantiated with, and the evidence that [exact_solver] can be met. *)

Section brute_force.
Context {V : Type} `{EqDecision V}.

(** All sublists of [l]. *)
Fixpoint subsets (l : list V) : list (list V) :=
  match l with
  | [] => [[]]
  | x :: l' => subsets l' ++ map (cons x) (subsets l')
  end.

(** The assignment that gives 1 to the indices in [S] and 0 to the others. *)
Definition indicator (S : list V) : V → Z :=
  λ v, if decide (v ∈ S) then 1%Z else 0%Z.

Definition feasibleb (P : LpProblem V) (a : V → Z) : bool :=
  forallb (λ x, (lowBound x <=? a (var_index x))%Z && (a (var_index x) <=? upBound x)%Z)
          (lp_variables P) &&
  forallb (λ c, (con_rhs c.2 <=? expr_value a (con_lhs c.2))%Z) (constraints P).

(** The first element of [best :: l] on which [f] is least. *)
Fixpoint argmin {A} (f : A → Z) (best : A) (l : list A) : A :=
  match l with
  | [] => best
  | x :: l' => argmin f (if (f x <? f best)%Z then x else best) l'
  end.

Definition brute_force_solve (P : LpProblem V) : V → Z :=
  let indices := remove_dups (var_index <$> lp_variables P) in
  match filter (λ D, feasibleb P (indicator D) = true) (subsets indices) with
  | [] => indicator []
  | D :: candidates =>
      indicator (argmin (λ D, expr_value (indicator D) (objective P)) D candidates)
  end.

Lemma filter_in_subsets (p : V → Prop) `{∀ x, Decision (p x)} l : filter p l ∈ subsets l.
Proof.
  induction l as [|x l IH]; simpl.
  - apply list_elem_of_singleton. done.
  - apply elem_of_app. rewrite filter_cons. case_decide.
    + right. apply list_elem_of_fmap. eauto.
    + by left.
Qed.

Lemma argmin_elem {A} (f : A → Z) best l : argmin f best l ∈ best :: l.
Proof.
  revert best. induction l as [|x l IH]; intros best; simpl; [by left|].
  specialize (IH (if (f x <? f best)%Z then x else best)).
  apply elem_of_cons in IH as [->|?]; [|by do 2 right].
  destruct (f x <? f best)%Z; [right; left | left].
Qed.

Lemma argmin_least {A} (f : A → Z) best l x :
  x ∈ best :: l → (f (argmin f best l) ≤ f x)%Z.
Proof.
  revert best x. induction l as [|y l IH]; intros best x Hx; simpl.
  - apply list_elem_of_singleton in Hx as ->. lia.
  - destruct (Z.ltb_spec (f y) (f best)) as [Hlt|Hge].
    + apply elem_of_cons in Hx as [->|Hx]; [|by apply IH].
      etrans; [apply (IH y y); left|]. lia.
    + apply elem_of_cons in Hx as [->|[->|Hx]%elem_of_cons].
      * apply IH. left.
      * etrans; [apply (IH best best); left|]. lia.
      * apply IH. by right.
Qed.

Lemma feasibleb_spec (P : LpProblem V) a : feasibleb P a = true ↔ feasible P a.
Proof.
  unfold feasibleb, feasible.
  rewrite andb_true_iff, !forallb_forall. split.
  - intros [Hb Hc]. split.
    + intros x Hx%list_elem_of_In%Hb. lia.
    + intros c Hx%list_elem_of_In%Hc. lia.
  - intros [Hb Hc]. split.
    + intros x Hx%list_elem_of_In%Hb. lia.
    + intros c Hx%list_elem_of_In%Hc. lia.
Qed.

(** The value of an expression depends only on the values of its own
    variables. *)
Lemma expr_value_ext a b (e : LpAffineExpression V) :
  (∀ t, t ∈ e → a (var_index t.1) = b (var_index t.1)) → expr_value a e = expr_value b e.
Proof.
  induction e as [|t e IH]; simpl; [done|].
  intros Hab. rewrite (Hab t) by left. rewrite IH; [done|].
  intros t' Ht'. apply Hab. by right.
Qed.

Lemma objective_variables (P : LpProblem V) t : t ∈ objective P → t.1 ∈ lp_variables P.
Proof.
  intros Ht. apply elem_of_app. left. apply list_elem_of_fmap. eauto.
Qed.

Lemma constraint_variables (P : LpProblem V) c t : c ∈ constraints P → t ∈ con_lhs c.2 → t.1 ∈ lp_variables P.
Proof.
  intros Hc Ht. apply elem_of_app. right.
  apply list_elem_of_In, in_flat_map. exists c.
  split; [by apply list_elem_of_In|]. apply list_elem_of_In, list_elem_of_fmap. eauto.
Qed.

(** Two assignments that agree on the variables of a problem are feasible
    together. *)
Lemma feasible_ext (P : LpProblem V) a b :
  (∀ x, x ∈ lp_variables P → a (var_index x) = b (var_index x)) →
  feasible P a → feasible P b.
Proof.
  intros Hab [Hbounds Hcons]. split.
  - intros x Hx. rewrite <- Hab by done. auto.
  - intros c Hc. rewrite <- (expr_value_ext a b); [auto|].
    intros t Ht. apply Hab. by eapply constraint_variables.
Qed.

Lemma objective_ext (P : LpProblem V) a b :
  (∀ x, x ∈ lp_variables P → a (var_index x) = b (var_index x)) →
  expr_value a (objective P) = expr_value b (objective P).
Proof.
  intros Hab. apply expr_value_ext. intros t Ht. apply Hab. by apply objective_variables.
Qed.

(** A solution of a 0/1 problem is the indicator of the indices it sets
    to 1. *)
Lemma feasible_indicator (P : LpProblem V) b :
  binary_problem P → feasible P b →
  ∀ x, x ∈ lp_variables P →
    b (var_index x) =
    indicator (filter (λ v, b v = 1%Z) (remove_dups (var_index <$> lp_variables P))) (var_index x).
Proof.
  intros Hbin [Hbounds _] x Hx. unfold indicator.
  destruct (Hbin x Hx) as (_ & Hlo & Hup). specialize (Hbounds x Hx).
  rewrite Hlo, Hup in Hbounds.
  assert (var_index x ∈ remove_dups (var_index <$> lp_variables P)) as Hidx.
  { apply elem_of_remove_dups, list_elem_of_fmap. eauto. }
  case_decide as Hin.
  - by apply list_elem_of_filter in Hin as [? _].
  - rewrite list_elem_of_filter in Hin.
    destruct (decide (b (var_index x) = 1%Z)); [tauto | lia].
Qed.

Theorem brute_force_solve_exact : exact_solver brute_force_solve.
Proof.
  intros P _ Hbin _ [b0 Hb0]. unfold brute_force_solve.
  set (indices := remove_dups (var_index <$> lp_variables P)).
  set (obj := λ S, expr_value (indicator S) (objective P)).
  assert (∀ b, feasible P b →
    ∃ S, S ∈ filter (λ S, feasibleb P (indicator S) = true) (subsets indices) ∧
         obj S = expr_value b (objective P)) as Hrepr.
  { intros b Hb. exists (filter (λ v, b v = 1%Z) indices). split.
    - apply list_elem_of_filter. split; [|apply filter_in_subsets].
      apply feasibleb_spec. eapply feasible_ext; [|exact Hb].
      by apply feasible_indicator.
    - symmetry. apply objective_ext. by apply feasible_indicator. }
  destruct (filter _ (subsets indices)) as [|S0 cands] eqn:Hcands.
  { destruct (Hrepr b0 Hb0) as (S & HS & _). by apply elem_of_nil in HS. }
  split.
  - pose proof (argmin_elem obj S0 cands) as Hin.
    rewrite <- Hcands in Hin. apply list_elem_of_filter in Hin as [Hin _].
    by apply feasibleb_spec.
  - intros b Hb. destruct (Hrepr b Hb) as (S & HS & <-).
    by apply (argmin_least obj).
Qed.

End brute_force.

(** ** What the solve operation computes *)

Section solve_run.
Context {V W : Type} `{EqDecision V} `{PyStr V}.
Variable solve : LpProblem V → V → Z.

(** The variable [vertex_vars[i]]. *)
Definition vertex_variable (i : V) : LpVariable V :=
  mkLpVariable (pulp_name ("Vertex" +:+ "_" +:+ py_str i)) i 0 1 LpBinary.

(** The name PuLP makes of the vertex [i] in the name of its variable. *)
Definition pulp_vertex_name (i : V) : string := pulp_name (py_str i).

(** The name under which the constraint of vertex [i] is stored. *)
Definition constraint_name (i : V) : string :=
  expression_name ("DominatingCondition_" +:+ py_str i).

(** No two vertices of [G] have the same PuLP name: their variables have
    distinct names, and so have their constraints. *)
Definition distinct_names (G : Graph V W) : Prop :=
  NoDup (pulp_vertex_name <$> nodes G).

#[global] Instance distinct_names_dec G : Decision (distinct_names G).
Proof. unfold distinct_names. apply _. Defined.

(** No two vertices of [G] have a constraint of the same name. *)
Definition distinct_constraint_names (G : Graph V W) : Prop :=
  NoDup (constraint_name <$> nodes G).

#[global] Instance distinct_constraint_names_dec G : Decision (distinct_constraint_names G).
Proof. unfold distinct_constraint_names. apply _. Defined.

(** The constraint the program adds for vertex [i]. *)
Definition dominating_condition (G : Graph V W) (i : V) : LpConstraint V :=
  mkLpConstraint
    (expr_add_var (lpSum (vertex_variable <$> neighbors G i)) (vertex_variable i)) 1.

(** The problem the program has built when it calls the solver. *)
Definition mds_problem (G : Graph V W) : LpProblem V :=
  mkLpProblem "MinimumDominatingSet" LpMinimize
    (lpSum (vertex_variable <$> nodes G))
    ((λ i, (constraint_name i, dominating_condition G i)) <$> nodes G).

(** The vertices whose variable the solver has set to 1. *)
Definition selected (G : Graph V W) : list V :=
  filter (λ v, solve (mds_problem G) v = 1%Z) (nodes G).

Lemma translate_app illegal s t :
  translate illegal (s +:+ t) = translate illegal s +:+ translate illegal t.
Proof. induction s as [|c s IH]; simpl; [done|]. by rewrite IH. Qed.

(** A character that is not kept in the name of a constraint is not kept in
    the name of a variable. *)
Lemma illegal_expression_char_illegal c :
  illegal_expression_char c = true → illegal_char c = true.
Proof. by destruct c as [[] [] [] [] [] [] [] []]. Qed.

Lemma pulp_name_expression_name s : pulp_name (expression_name s) = pulp_name s.
Proof.
  unfold pulp_name, expression_name. induction s as [|c s IH]; simpl; [done|].
  rewrite IH. f_equal. destruct (illegal_expression_char c) eqn:E; [|done].
  by rewrite (illegal_expression_char_illegal c E).
Qed.

Lemma variable_name_vertex (i : V) :
  var_name (vertex_variable i) = "Vertex_" +:+ pulp_vertex_name i.
Proof. unfold vertex_variable, pulp_vertex_name, pulp_name. simpl. by rewrite translate_app. Qed.

Lemma constraint_name_vertex (i : V) :
  constraint_name i = "DominatingCondition_" +:+ expression_name (py_str i).
Proof. unfold constraint_name, expression_name. by rewrite translate_app. Qed.

(** Two vertices of a list without two equal PuLP names that have the same
    PuLP name are the same. *)
Lemma pulp_vertex_name_inj (l : list V) i j :
  NoDup (pulp_vertex_name <$> l) → i ∈ l → j ∈ l →
  pulp_vertex_name i = pulp_vertex_name j → i = j.
Proof.
  induction l as [|x l IH]; csimpl; [by intros _ ?%elem_of_nil|].
  intros [Hx Hnd]%NoDup_cons [->|Hi]%elem_of_cons [->|Hj]%elem_of_cons Heq; [done| | |auto].
  - exfalso. apply Hx. rewrite Heq. apply list_elem_of_fmap. eauto.
  - exfalso. apply Hx. rewrite <- Heq. apply list_elem_of_fmap. eauto.
Qed.

(** When the names of the variables are distinct, so are the names of the
    constraints. *)
Lemma distinct_constraint_names_of_names (G : Graph V W) :
  distinct_names G → distinct_constraint_names G.
Proof.
  unfold distinct_names, distinct_constraint_names. intros Hnd.
  assert (constraint_name <$> nodes G =
          String.app "DominatingCondition_" <$> ((expression_name ∘ py_str) <$> nodes G))
    as ->.
  { rewrite <- list_fmap_compose. apply list_fmap_ext. intros _ i _. simpl.
    apply constraint_name_vertex. }
  apply (NoDup_fmap (String.app "DominatingCondition_")).
  apply (NoDup_fmap_1 pulp_name). rewrite <- list_fmap_compose.
  erewrite list_fmap_ext; [exact Hnd|]. intros _ i _. simpl.
  apply pulp_name_expression_name.
Qed.

Lemma bind_run {A B} (m : M V W A) (k : A → M V W B) G a G' :
  m G = (inr a, G') → bind m k G = k a G'.
Proof. unfold bind. by intros ->. Qed.

Lemma bind_raise {A B} (m : M V W A) (k : A → M V W B) G e G' :
  m G = (inl e, G') → bind m k G = (inl e, G').
Proof. unfold bind. by intros ->. Qed.

Lemma G_nodes_run (G : Graph V W) : G_nodes G = (inr (nodes G), G).
Proof. done. Qed.

Lemma G_neighbors_run (G : Graph V W) n :
  is_Some (dict_get (G_adj G) n) → G_neighbors n G = (inr (neighbors G n), G).
Proof.
  intros [adj_n E]. unfold G_neighbors, neighbors, bind, get_adj. by rewrite E.
Qed.

Lemma LpVariable_dicts_get_aux (f : V → LpVariable V) (l : list V) d i :
  dict_get (foldl (λ d i, dict_set d i (f i)) d l) i =
  if decide (i ∈ l) then Some (f i) else dict_get d i.
Proof.
  revert d. induction l as [|x l IH]; intros d; simpl.
  - destruct (decide (i ∈ [])) as [Hin%elem_of_nil|]; done.
  - rewrite IH. destruct (decide (i ∈ l)) as [Hin|Hin].
    + rewrite decide_True by (by right). done.
    + rewrite dict_get_set. destruct (decide (x = i)) as [->|Hne].
      * rewrite decide_True by left. done.
      * rewrite decide_False; [done|]. by intros [->|?]%elem_of_cons.
Qed.

Lemma LpVariable_dicts_get name (l : list V) lo up c i :
  i ∈ l →
  dict_get (LpVariable_dicts name l lo up c) i =
  Some (mkLpVariable (pulp_name (name +:+ "_" +:+ py_str i)) i lo up c).
Proof.
  intros Hi. unfold LpVariable_dicts.
  rewrite (LpVariable_dicts_get_aux
             (λ i, mkLpVariable (pulp_name (name +:+ "_" +:+ py_str i)) i lo up c)).
  by rewrite decide_True.
Qed.

Lemma vertex_var_run (G : Graph V W) l i :
  i ∈ l →
  vertex_var (LpVariable_dicts "Vertex" l 0 1 LpBinary) i G = (inr (vertex_variable i), G).
Proof. intros Hi. unfold vertex_var. by rewrite LpVariable_dicts_get. Qed.

Lemma map_M_vertex_var_run (G : Graph V W) l l' :
  l' ⊆ l →
  map_M (vertex_var (LpVariable_dicts "Vertex" l 0 1 LpBinary)) l' G =
  (inr (vertex_variable <$> l'), G).
Proof.
  induction l' as [|x l' IH]; intros Hsub; simpl; [done|].
  erewrite bind_run; [|apply vertex_var_run, Hsub; left].
  erewrite bind_run; [done|]. apply IH. intros y Hy. apply Hsub. by right.
Qed.

(** One turn of the loop over the vertices: the constraint of [i] is added,
    or [PulpError] is raised. *)
Lemma add_dominating_condition_run (G : Graph V W) prob i :
  wf_graph G → i ∈ nodes G →
  add_dominating_condition (LpVariable_dicts "Vertex" (nodes G) 0 1 LpBinary) prob i G =
  (add_constraint prob ("DominatingCondition_" +:+ py_str i) (dominating_condition G i), G).
Proof.
  intros Hwf Hi. unfold add_dominating_condition.
  erewrite bind_run; [|by apply G_neighbors_run, wf_adj_is_Some].
  erewrite bind_run; [|apply map_M_vertex_var_run; intros m Hm; by eapply wf_neighbors_nodes].
  erewrite bind_run; [|by apply vertex_var_run].
  fold (dominating_condition G i).
  by destruct (add_constraint prob _ (dominating_condition G i)).
Qed.

(** The loop over the vertices: the constraints are added under their
    names, unless a name comes a second time. *)
Lemma fold_M_conditions_run (G : Graph V W) prob l :
  wf_graph G → l ⊆ nodes G → NoDup (dict_keys (constraints prob)) →
  fold_M (add_dominating_condition (LpVariable_dicts "Vertex" (nodes G) 0 1 LpBinary)) prob l G =
  (if decide (NoDup (dict_keys (constraints prob) ++ (constraint_name <$> l)))
   then inr (mkLpProblem (prob_name prob) (sense prob) (objective prob)
               (constraints prob ++ ((λ i, (constraint_name i, dominating_condition G i)) <$> l)))
   else inl PulpError, G).
Proof.
  intros Hwf. revert prob. induction l as [|x l IH]; intros prob Hsub Hkeys.
  - simpl. rewrite !app_nil_r. rewrite decide_True by done. by destruct prob.
  - cbn [fold_M].
    assert (x ∈ nodes G) as Hx by (apply Hsub; left).
    pose proof (add_dominating_condition_run G prob x Hwf Hx) as Hstep.
    unfold add_constraint in Hstep. cbv zeta in Hstep. fold (constraint_name x) in Hstep.
    destruct (decide (constraint_name x ∈ dict_keys (constraints prob))) as [Hin|Hin].
    + erewrite bind_raise; [|exact Hstep].
      rewrite decide_False; [done|]. intros Hnd%NoDup_app. destruct Hnd as (_ & Hdisj & _).
      apply (Hdisj _ Hin). rewrite fmap_cons. left.
    + erewrite bind_run; [|exact Hstep].
      rewrite IH; cbn [constraints prob_name sense objective].
      * unfold dict_keys. rewrite fmap_app. cbn [fmap list_fmap fst].
        rewrite <- !app_assoc. done.
      * intros y Hy. apply Hsub. by right.
      * unfold dict_keys. rewrite fmap_app. apply NoDup_app. split_and!; [done| |].
        -- intros y Hy ->%list_elem_of_singleton. done.
        -- apply NoDup_singleton.
Qed.

Lemma filter_M_value_run (G : Graph V W) (value : V → Z) l l' :
  l' ⊆ l →
  filter_M (λ v, x <- vertex_var (LpVariable_dicts "Vertex" l 0 1 LpBinary) v;;
                 ret (bool_decide (value (var_index x) = 1%Z))) l' G =
  (inr (filter (λ v, value v = 1%Z) l'), G).
Proof.
  induction l' as [|x l' IH]; intros Hsub; simpl; [done|].
  erewrite bind_run; [|erewrite bind_run; [done|apply vertex_var_run, Hsub; left]].
  erewrite bind_run; [|apply IH; intros y Hy; apply Hsub; by right].
  simpl. rewrite filter_cons. unfold ret. by case_bool_decide; case_decide.
Qed.

(** On a well-formed graph the solve operation leaves the graph as it is;
    it raises [PulpError] when two constraints get the same name, and
    otherwise returns the vertices the values of whose variables are 1 after
    [prob.solve()]. *)
Lemma find_minimum_dominating_set_outcome (G : Graph V W) :
  wf_graph G →
  find_minimum_dominating_set solve G =
  (if decide (distinct_constraint_names G) then inr (selected G) else inl PulpError, G).
Proof.
  intros Hwf. unfold find_minimum_dominating_set.
  erewrite bind_run; [|apply G_nodes_run].
  erewrite bind_run; [|apply G_nodes_run].
  erewrite bind_run; [|by apply map_M_vertex_var_run].
  erewrite bind_run; [|apply G_nodes_run].
  pose proof (fold_M_conditions_run G
    (set_objective (mkLpProblem "MinimumDominatingSet" LpMinimize [] [])
       (lpSum (vertex_variable <$> nodes G))) (nodes G) Hwf) as Hloop.
  cbn [set_objective constraints prob_name sense objective dict_keys fmap list_fmap app] in Hloop.
  specialize (Hloop (λ _ Hx, Hx) (NoDup_nil_2)).
  destruct (decide (distinct_constraint_names G)) as [Hnames|Hnames].
  - rewrite decide_True in Hloop by done.
    erewrite bind_run; [|exact Hloop].
    erewrite bind_run; [|apply G_nodes_run].
    by rewrite filter_M_value_run.
  - rewrite decide_False in Hloop by done.
    by erewrite bind_raise; [|exact Hloop].
Qed.

Lemma find_minimum_dominating_set_run (G : Graph V W) :
  wf_graph G → distinct_names G →
  find_minimum_dominating_set solve G = (inr (selected G), G).
Proof.
  intros Hwf Hnames. rewrite find_minimum_dominating_set_outcome by done.
  rewrite decide_True; [done | by apply distinct_constraint_names_of_names].
Qed.

(** A list that the solve operation returns is the list of the selected
    vertices. *)
Lemma find_minimum_dominating_set_inr (G : Graph V W) D :
  wf_graph G → (find_minimum_dominating_set solve G).1 = inr D → D = selected G.
Proof.
  intros Hwf. rewrite find_minimum_dominating_set_outcome by done. simpl.
  case_decide; [|done]. by intros [= <-].
Qed.

End solve_run.

(** ** The linear program and domination *)

Section program_meaning.
Context {V W : Type} `{EqDecision V} `{PyStr V}.

(** The sum of the values of the variables of the vertices in [l]. *)
Definition sum_values (a : V → Z) (l : list V) : Z :=
  foldr (λ v s, (a v + s)%Z) 0%Z l.

Lemma expr_value_lpSum a (l : list V) :
  expr_value a (lpSum (vertex_variable <$> l)) = sum_values a l.
Proof.
  unfold lpSum. induction l as [|v l IH]; csimpl in *; [done|].
  rewrite IH. destruct (a v); reflexivity.
Qed.

Lemma expr_value_add_var a (e : LpAffineExpression V) x :
  expr_value a (expr_add_var e x) = (expr_value a e + a (var_index x))%Z.
Proof.
  unfold expr_add_var. induction e as [|t e IH]; simpl; [lia|].
  rewrite IH. lia.
Qed.

Lemma dominating_condition_value (G : Graph V W) a i :
  expr_value a (con_lhs (dominating_condition G i)) = (sum_values a (neighbors G i) + a i)%Z.
Proof.
  unfold dominating_condition. simpl. by rewrite expr_value_add_var, expr_value_lpSum.
Qed.

Lemma sum_values_nonneg a (l : list V) :
  (∀ v, v ∈ l → (0 ≤ a v)%Z) → (0 ≤ sum_values a l)%Z.
Proof.
  induction l as [|v l IH]; simpl; [lia|].
  intros Ha. specialize (Ha v (list_elem_of_here _ _)) as Hv.
  assert (0 ≤ sum_values a l)%Z by (apply IH; intros; apply Ha; by right). lia.
Qed.

Lemma sum_values_pos_inv a (l : list V) :
  (∀ v, v ∈ l → (0 ≤ a v)%Z) → (1 ≤ sum_values a l)%Z → ∃ w, w ∈ l ∧ (1 ≤ a w)%Z.
Proof.
  induction l as [|v l IH]; simpl; [lia|].
  intros Ha Hsum. destruct (decide (1 ≤ a v)%Z) as [Hv|Hv].
  - exists v. split; [left | done].
  - specialize (Ha v (list_elem_of_here _ _)) as Hv0.
    destruct IH as (w & Hw & Haw); [intros; apply Ha; by right | lia |].
    exists w. split; [by right | done].
Qed.

Lemma sum_values_pos a (l : list V) w :
  (∀ v, v ∈ l → (0 ≤ a v)%Z) → w ∈ l → (1 ≤ a w)%Z → (1 ≤ sum_values a l)%Z.
Proof.
  induction l as [|v l IH]; simpl; [by intros _ ?%elem_of_nil|].
  intros Ha Hw Haw. specialize (Ha v (list_elem_of_here _ _)) as Hv0.
  assert (0 ≤ sum_values a l)%Z by (apply sum_values_nonneg; intros; apply Ha; by right).
  apply elem_of_cons in Hw as [->|Hw]; [lia|].
  assert (1 ≤ sum_values a l)%Z by (apply IH; [intros; apply Ha; by right | done..]).
  lia.
Qed.

(** The sum of 0/1 values counts the ones. *)
Lemma sum_values_count a (l : list V) :
  (∀ v, v ∈ l → a v = 0%Z ∨ a v = 1%Z) →
  sum_values a l = Z.of_nat (length (filter (λ v, a v = 1%Z) l)).
Proof.
  induction l as [|v l IH]; simpl; [done|].
  intros Ha. rewrite IH by (intros; apply Ha; by right).
  rewrite filter_cons. destruct (Ha v (list_elem_of_here _ _)) as [Hv|Hv].
  - rewrite decide_False by lia. lia.
  - rewrite decide_True by done. simpl. lia.
Qed.

Lemma indicator_0_1 (D : list V) v : indicator D v = 0%Z ∨ indicator D v = 1%Z.
Proof. unfold indicator. case_decide; auto. Qed.

Lemma indicator_1 (D : list V) v : indicator D v = 1%Z ↔ v ∈ D.
Proof. unfold indicator. case_decide; split; intros; done. Qed.

Lemma mds_problem_variables (G : Graph V W) x :
  wf_graph G → x ∈ lp_variables (mds_problem G) → ∃ v, v ∈ nodes G ∧ x = vertex_variable v.
Proof.
  intros Hwf. unfold lp_variables, mds_problem. simpl.
  intros [Hx|Hx]%elem_of_app.
  - apply list_elem_of_fmap in Hx as ([x' c] & -> & Hx). simpl.
    apply list_elem_of_fmap in Hx as (y & [= -> ->] & Hy).
    apply list_elem_of_fmap in Hy as (v & -> & Hv). eauto.
  - apply list_elem_of_In, in_flat_map in Hx as (c & Hc%list_elem_of_In & Hx%list_elem_of_In).
    apply list_elem_of_fmap in Hc as (i & -> & Hi). simpl in Hx.
    apply list_elem_of_fmap in Hx as ([x' k] & -> & Hx). simpl.
    unfold expr_add_var in Hx. apply elem_of_app in Hx as [Hx|Hx].
    + apply list_elem_of_fmap in Hx as (y & [= -> ->] & Hy).
      apply list_elem_of_fmap in Hy as (v & -> & Hv).
      exists v. split; [by eapply wf_neighbors_nodes | done].
    + apply list_elem_of_singleton in Hx as [= -> ->]. eauto.
Qed.

Lemma mds_problem_has_variable (G : Graph V W) v :
  v ∈ nodes G → vertex_variable v ∈ lp_variables (mds_problem G).
Proof.
  intros Hv. apply elem_of_app. left. simpl.
  apply list_elem_of_fmap. exists (vertex_variable v, 1%Z). split; [done|].
  apply list_elem_of_fmap. exists (vertex_variable v). split; [done|].
  apply list_elem_of_fmap. eauto.
Qed.

Lemma mds_problem_binary (G : Graph V W) : wf_graph G → binary_problem (mds_problem G).
Proof. intros Hwf x Hx. by destruct (mds_problem_variables G x Hwf Hx) as (v & _ & ->). Qed.

(** The variables of the problem have distinct names when the vertices
    have distinct PuLP names. *)
Lemma mds_problem_distinct_variable_names (G : Graph V W) :
  wf_graph G → distinct_names G → distinct_variable_names (mds_problem G).
Proof.
  intros Hwf Hnames x y Hx Hy Heq.
  destruct (mds_problem_variables G x Hwf Hx) as (v & Hv & ->).
  destruct (mds_problem_variables G y Hwf Hy) as (w & Hw & ->).
  rewrite !variable_name_vertex in Heq. apply String.app_inj in Heq.
  simpl. by apply (pulp_vertex_name_inj (nodes G)).
Qed.

(** The solutions of the problem: 0/1 values on the vertices, with a 1 in
    the closed neighbourhood of every vertex. *)
Lemma mds_problem_feasible (G : Graph V W) a :
  wf_graph G →
  feasible (mds_problem G) a ↔
  (∀ v, v ∈ nodes G → a v = 0%Z ∨ a v = 1%Z) ∧
  (∀ v, v ∈ nodes G → (1 ≤ sum_values a (neighbors G v) + a v)%Z).
Proof.
  intros Hwf. split.
  - intros [Hbounds Hcons]. split.
    + intros v Hv. specialize (Hbounds _ (mds_problem_has_variable G v Hv)).
      simpl in Hbounds. lia.
    + intros v Hv. rewrite <- dominating_condition_value.
      apply (Hcons (constraint_name v, dominating_condition G v)).
      simpl. apply list_elem_of_fmap. eauto.
  - intros [Hbits Hcover]. split.
    + intros x Hx. destruct (mds_problem_variables G x Hwf Hx) as (v & Hv & ->).
      simpl. destruct (Hbits v Hv); lia.
    + intros c Hc. simpl in Hc. apply list_elem_of_fmap in Hc as (i & -> & Hi).
      cbn [snd]. rewrite dominating_condition_value.
      unfold dominating_condition; cbn [con_rhs]. by apply Hcover.
Qed.

Lemma mds_problem_objective (G : Graph V W) a :
  (∀ v, v ∈ nodes G → a v = 0%Z ∨ a v = 1%Z) →
  expr_value a (objective (mds_problem G)) =
  Z.of_nat (length (filter (λ v, a v = 1%Z) (nodes G))).
Proof. intros Hbits. simpl. rewrite expr_value_lpSum. by apply sum_values_count. Qed.

(** The vertices a solution sets to 1 dominate the graph. *)
Lemma feasible_dominating (G : Graph V W) a :
  wf_graph G → feasible (mds_problem G) a →
  is_dominating_set G (filter (λ v, a v = 1%Z) (nodes G)).
Proof.
  intros Hwf [Hbits Hcover]%mds_problem_feasible v Hv; [|done].
  destruct (Hbits v Hv) as [Hv0|Hv1].
  - right. destruct (sum_values_pos_inv a (neighbors G v)) as (w & Hw & Haw).
    + intros w Hw. destruct (Hbits w); [by eapply wf_neighbors_nodes | lia..].
    + specialize (Hcover v Hv). lia.
    + exists w. split; [done|]. apply list_elem_of_filter.
      assert (w ∈ nodes G) as Hwn by (by eapply wf_neighbors_nodes).
      split; [|done]. destruct (Hbits w Hwn); lia.
  - left. by apply list_elem_of_filter.
Qed.

(** The indicator of a dominating set is a solution. *)
Lemma dominating_feasible (G : Graph V W) D :
  wf_graph G → is_dominating_set G D → feasible (mds_problem G) (indicator D).
Proof.
  intros Hwf Hdom. apply mds_problem_feasible; [done|]. split.
  - intros v _. apply indicator_0_1.
  - intros v Hv.
    assert (0 ≤ sum_values (indicator D) (neighbors G v))%Z as Hsum.
    { apply sum_values_nonneg. intros w _. destruct (indicator_0_1 D w); lia. }
    destruct (Hdom v Hv) as [HvD|(w & Hw & HwD)].
    + apply indicator_1 in HvD. lia.
    + assert (1 ≤ sum_values (indicator D) (neighbors G v))%Z.
      { apply (sum_values_pos _ _ w); [|done|].
        - intros u _. destruct (indicator_0_1 D u); lia.
        - apply indicator_1 in HwD. lia. }
      destruct (indicator_0_1 D v); lia.
Qed.

(** Its objective value is at most the length of the set. *)
Lemma indicator_objective (G : Graph V W) D :
  wf_graph G →
  (expr_value (indicator D) (objective (mds_problem G)) ≤ Z.of_nat (length D))%Z.
Proof.
  intros (Hnd & _). rewrite mds_problem_objective by (intros; apply indicator_0_1).
  apply inj_le, submseteq_length, NoDup_submseteq.
  - by apply NoDup_filter.
  - intros v [Hv _]%list_elem_of_filter. by apply indicator_1.
Qed.

Lemma all_nodes_dominating (G : Graph V W) : is_dominating_set G (nodes G).
Proof. intros v Hv. by left. Qed.

End program_meaning.

(** ** Brute-force enumeration of dominating sets *)

Section brute_force_minimum.
Context {V W : Type} `{EqDecision V} `{PyStr V}.

(** The least size of a dominating set among all subsets of the vertices.
    The whole vertex set dominates, so its size starts the minimum. *)
Definition brute_force_minimum (G : Graph V W) : nat :=
  foldr Nat.min (length (nodes G))
    (length <$> filter (λ D, dominates G D = true) (subsets (nodes G))).

Lemma foldr_min_le (d : nat) l x : x ∈ l → foldr Nat.min d l ≤ x.
Proof.
  induction l as [|y l IH]; simpl; [by intros ?%elem_of_nil|].
  intros [->|Hx]%elem_of_cons; [lia|]. specialize (IH Hx). lia.
Qed.

Lemma foldr_min_ge (d : nat) l n : n ≤ d → (∀ x, x ∈ l → n ≤ x) → n ≤ foldr Nat.min d l.
Proof.
  intros Hd. induction l as [|y l IH]; simpl; [done|].
  intros Hl. specialize (Hl y (list_elem_of_here _ _)) as Hy.
  assert (n ≤ foldr Nat.min d l) by (apply IH; intros; apply Hl; by right). lia.
Qed.

End brute_force_minimum.

(** ** Correctness of the solve operation with an exact solver *)

Section solve_correct.
Context {V W : Type} `{EqDecision V} `{PyStr V}.
Variable solve : LpProblem V → V → Z.
Hypothesis solve_exact : exact_solver solve.

Lemma solve_feasible (G : Graph V W) :
  wf_graph G → distinct_names G → feasible (mds_problem G) (solve (mds_problem G)).
Proof.
  intros Hwf Hnames.
  apply solve_exact;
    [done | by apply mds_problem_binary | by apply mds_problem_distinct_variable_names |].
  exists (indicator (nodes G)). apply dominating_feasible; [done|].
  apply all_nodes_dominating.
Qed.

Lemma selected_subseteq (G : Graph V W) : selected solve G ⊆ nodes G.
Proof. intros v [_ Hv]%list_elem_of_filter. done. Qed.

Lemma selected_NoDup (G : Graph V W) : wf_graph G → NoDup (selected solve G).
Proof. intros (Hnd & _). by apply NoDup_filter. Qed.

Lemma selected_dominating (G : Graph V W) :
  wf_graph G → distinct_names G → is_dominating_set G (selected solve G).
Proof. intros Hwf Hnames. by apply feasible_dominating, solve_feasible. Qed.

Lemma selected_minimum (G : Graph V W) D :
  wf_graph G → distinct_names G → is_dominating_set G D →
  length (selected solve G) ≤ length D.
Proof.
  intros Hwf Hnames Hdom. apply Nat2Z.inj_le.
  pose proof (solve_feasible G Hwf Hnames) as Hfeas.
  destruct (solve_exact (mds_problem G)) as [_ Hmin];
    [done | by apply mds_problem_binary | by apply mds_problem_distinct_variable_names
    | by eexists |].
  specialize (Hmin (indicator D) (dominating_feasible G D Hwf Hdom)).
  apply mds_problem_feasible in Hfeas as [Hbits _]; [|done].
  rewrite mds_problem_objective in Hmin by done.
  etrans; [exact Hmin|]. by apply indicator_objective.
Qed.

Lemma selected_brute_force (G : Graph V W) :
  wf_graph G → distinct_names G → length (selected solve G) = brute_force_minimum G.
Proof.
  intros Hwf Hnames. apply Nat.le_antisymm.
  - apply foldr_min_ge.
    + apply selected_minimum; [done.. | apply all_nodes_dominating].
    + intros n (D & -> & HD)%list_elem_of_fmap.
      apply list_elem_of_filter in HD as [HD%dominates_spec _].
      by apply selected_minimum.
  - apply foldr_min_le, list_elem_of_fmap. exists (selected solve G). split; [done|].
    apply list_elem_of_filter. split.
    + by apply dominates_spec, selected_dominating.
    + apply filter_in_subsets.
Qed.

Lemma selected_nonempty (G : Graph V W) :
  wf_graph G → distinct_names G → nodes G ≠ [] → 1 ≤ length (selected solve G).
Proof.
  intros Hwf Hnames Hne. destruct (nodes G) as [|v l] eqn:E; [done|].
  assert (v ∈ nodes G) as Hv by (rewrite E; left).
  destruct (selected_dominating G Hwf Hnames v Hv) as [Hin|(w & _ & Hin)];
    destruct (selected solve G); simpl; first [lia | by apply elem_of_nil in Hin].
Qed.





End solve_correct.

(** ** What the solve operation reads of the graph *)

(** The graph without its weights: the vertices and, for each, its
    neighbours, all in their order. *)
Definition erase_adj {V W : Type} (d : dict V W) : dict V unit :=
  (λ q : V * W, (q.1, ())) <$> d.

Definition erase_weights {V W : Type} (G : Graph V W) : Graph V unit :=
  mkGraph (G_node G) ((λ p : V * dict V W, (p.1, erase_adj p.2)) <$> G_adj G).

Section reads.
Context {V W1 W2 : Type} `{EqDecision V} `{PyStr V}.

(** Two graphs that differ at most in the weights of their edges. *)
Definition same_shape (G1 : Graph V W1) (G2 : Graph V W2) : Prop :=
  erase_weights G1 = erase_weights G2.

(** A computation that writes nothing to the graph and whose outcome does
    not depend on the weights: run on two graphs of the same shape, it
    leaves both as they are and returns (or raises) the same. *)
Definition reads_shape {A} (m1 : M V W1 A) (m2 : M V W2 A) : Prop :=
  ∀ G1 G2, same_shape G1 G2 →
    (m1 G1).2 = G1 ∧ (m2 G2).2 = G2 ∧ (m1 G1).1 = (m2 G2).1.

Lemma reads_ret {A} (a : A) : reads_shape (ret a) (ret a).
Proof. by intros G1 G2 _. Qed.

Lemma reads_raise {A} e : reads_shape (@raise V W1 A e) (@raise V W2 A e).
Proof. by intros G1 G2 _. Qed.

Lemma reads_or_raise {A} e (o : option A) : reads_shape (or_raise e o) (or_raise e o).
Proof. destruct o; [apply reads_ret | apply reads_raise]. Qed.

Lemma reads_of_result {A} (r : exn + A) : reads_shape (of_result r) (of_result r).
Proof. destruct r; [apply reads_raise | apply reads_ret]. Qed.

Lemma reads_bind {A B} (m1 : M V W1 A) (m2 : M V W2 A) (k1 : A → M V W1 B) k2 :
  reads_shape m1 m2 → (∀ a, reads_shape (k1 a) (k2 a)) →
  reads_shape (bind m1 k1) (bind m2 k2).
Proof.
  intros Hm Hk G1 G2 HG. unfold bind.
  destruct (Hm G1 G2 HG) as (E1 & E2 & E).
  destruct (m1 G1) as [[e1|a1] G1'], (m2 G2) as [[e2|a2] G2']; simpl in *; subst;
    try discriminate; simplify_eq; [done|].
  by apply Hk.
Qed.

Lemma same_shape_nodes (G1 : Graph V W1) (G2 : Graph V W2) :
  same_shape G1 G2 → nodes G1 = nodes G2.
Proof. unfold same_shape, erase_weights, nodes. intros [= -> _]. done. Qed.

Lemma dict_get_erase {W} (adj : dict V (dict V W)) n :
  dict_keys <$> dict_get ((λ p : V * dict V W, (p.1, erase_adj p.2)) <$> adj) n =
  dict_keys <$> dict_get adj n.
Proof.
  induction adj as [|[k d] adj IH]; csimpl; [done|].
  case_decide; [|done]. simpl. f_equal. unfold dict_keys, erase_adj.
  rewrite <- list_fmap_compose. done.
Qed.

Lemma same_shape_neighbors (G1 : Graph V W1) (G2 : Graph V W2) n :
  same_shape G1 G2 →
  dict_keys <$> dict_get (G_adj G1) n = dict_keys <$> dict_get (G_adj G2) n.
Proof.
  unfold same_shape, erase_weights. intros [= _ Hadj].
  rewrite <- (dict_get_erase (G_adj G1)), <- (dict_get_erase (G_adj G2)).
  by rewrite Hadj.
Qed.

Lemma reads_G_nodes : reads_shape (@G_nodes V W1) (@G_nodes V W2).
Proof.
  intros G1 G2 HG. rewrite !G_nodes_run. simpl.
  by rewrite (same_shape_nodes G1 G2).
Qed.

Lemma reads_G_neighbors n : reads_shape (@G_neighbors V W1 _ n) (@G_neighbors V W2 _ n).
Proof.
  intros G1 G2 HG. pose proof (same_shape_neighbors G1 G2 n HG) as E.
  unfold G_neighbors, bind, get_adj.
  destruct (dict_get (G_adj G1) n), (dict_get (G_adj G2) n); simpl in *;
    try discriminate; [|done].
  injection E as ->. done.
Qed.

Lemma reads_map_M {A B} (f1 : A → M V W1 B) (f2 : A → M V W2 B) l :
  (∀ x, reads_shape (f1 x) (f2 x)) → reads_shape (map_M f1 l) (map_M f2 l).
Proof.
  intros Hf. induction l as [|x l IH]; simpl; [apply reads_ret|].
  apply reads_bind; [done|]. intros y.
  apply reads_bind; [done|]. intros ys. apply reads_ret.
Qed.

Lemma reads_filter_M {A} (p1 : A → M V W1 bool) (p2 : A → M V W2 bool) l :
  (∀ x, reads_shape (p1 x) (p2 x)) → reads_shape (filter_M p1 l) (filter_M p2 l).
Proof.
  intros Hp. induction l as [|x l IH]; simpl; [apply reads_ret|].
  apply reads_bind; [done|]. intros b.
  apply reads_bind; [done|]. intros xs. apply reads_ret.
Qed.

Lemma reads_fold_M {A B} (f1 : B → A → M V W1 B) (f2 : B → A → M V W2 B) b l :
  (∀ b x, reads_shape (f1 b x) (f2 b x)) → reads_shape (fold_M f1 b l) (fold_M f2 b l).
Proof.
  intros Hf. revert b. induction l as [|x l IH]; intros b; simpl; [apply reads_ret|].
  apply reads_bind; [done|]. intros b'. apply IH.
Qed.

Lemma reads_vertex_var vertex_vars i :
  reads_shape (@vertex_var V W1 _ vertex_vars i) (@vertex_var V W2 _ vertex_vars i).
Proof. apply reads_or_raise. Qed.

Lemma reads_add_dominating_condition vertex_vars prob i :
  reads_shape (add_dominating_condition (W:=W1) vertex_vars prob i)
              (add_dominating_condition (W:=W2) vertex_vars prob i).
Proof.
  apply reads_bind; [apply reads_G_neighbors|]. intros nbrs.
  apply reads_bind; [apply reads_map_M, reads_vertex_var|]. intros terms.
  apply reads_bind; [apply reads_vertex_var|]. intros x_i. apply reads_of_result.
Qed.

Lemma reads_find_minimum_dominating_set solve :
  reads_shape (find_minimum_dominating_set (W:=W1) solve)
              (find_minimum_dominating_set (W:=W2) solve).
Proof.
  apply reads_bind; [apply reads_G_nodes|]. intros l0.
  apply reads_bind; [apply reads_G_nodes|]. intros l1.
  apply reads_bind; [apply reads_map_M, reads_vertex_var|]. intros terms.
  apply reads_bind; [apply reads_G_nodes|]. intros l2.
  apply reads_bind; [apply reads_fold_M, reads_add_dominating_condition|]. intros prob.
  apply reads_bind; [apply reads_G_nodes|]. intros l3.
  apply reads_filter_M. intros v.
  apply reads_bind; [apply reads_vertex_var|]. intros x. apply reads_ret.
Qed.

End reads.

(** C3: the weights of the edges do not influence the solve operation: on
    two graphs with the same vertices and the same edges, differing at most
    in the weights, it returns the same set (or raises the same exception). *)
Theorem weights_do_not_interfere {V W1 W2 : Type} `{EqDecision V} `{PyStr V}
    (solve : LpProblem V → V → Z) (G1 : Graph V W1) (G2 : Graph V W2) :
  erase_weights G1 = erase_weights G2 →
  (find_minimum_dominating_set solve G1).1 = (find_minimum_dominating_set solve G2).1.
Proof. intros HG. by apply reads_find_minimum_dominating_set. Qed.

(** C9: the solve operation leaves the graph unchanged: whatever the call
    returns or raises, the graph object holds the same vertices, edges and
    weights after the call as before. *)
Theorem solve_leaves_graph_unchanged {V W : Type} `{EqDecision V} `{PyStr V}
    (solve : LpProblem V → V → Z) (G : Graph V W) :
  (find_minimum_dominating_set solve G).2 = G.
Proof. by apply (reads_find_minimum_dominating_set solve G G). Qed.

(** ** What [add_edge] does to a graph *)

Section add_edge_facts.
Context {V W : Type} `{EqDecision V} `{PyStr V}.

(** Every edge is stored in both directions. *)
Definition undirected (G : Graph V W) : Prop :=
  ∀ n m, m ∈ neighbors G n → n ∈ neighbors G m.

(** The graph after the first half of [add_edge] for the node [n]. *)
Definition with_node (n : V) (G : Graph V W) : Graph V W :=
  if dict_mem (G_node G) n then G
  else mkGraph (dict_set (G_node G) n ()) (dict_set (G_adj G) n []).

(** The graph after [_adj[u][v] = weight]. *)
Definition with_adj (u v : V) (weight : W) (G : Graph V W) : Graph V W :=
  match dict_get (G_adj G) u with
  | Some adj_u => mkGraph (G_node G) (dict_set (G_adj G) u (dict_set adj_u v weight))
  | None => G
  end.

(** The graph after [add_edge(u, v, weight)], on a well-formed graph. *)
Definition with_edge (u v : V) (weight : W) (G : Graph V W) : Graph V W :=
  with_adj v u weight (with_adj u v weight (with_node v (with_node u G))).

Lemma wf_graph_alt (G : Graph V W) :
  wf_graph G ↔
  NoDup (nodes G) ∧ dict_keys (G_adj G) = nodes G ∧
  ∀ n m, m ∈ neighbors G n → m ∈ nodes G.
Proof.
  split.
  - intros Hwf. split_and!; [apply Hwf.. |]. intros n m. by apply wf_neighbors_nodes.
  - intros (Hnd & Hkeys & Hnb). split_and!; [done..|].
    apply Forall_forall. intros n _. apply Forall_forall. intros m. apply Hnb.
Qed.

Lemma add_node_if_missing_run n (G : Graph V W) :
  add_node_if_missing n G = (inr (), with_node n G).
Proof.
  unfold add_node_if_missing, with_node, bind, get_node, get_adj, put_adj, put_node, ret.
  by destruct (dict_mem (G_node G) n).
Qed.

Lemma adj_setitem_run u v weight (G : Graph V W) :
  is_Some (dict_get (G_adj G) u) → adj_setitem u v weight G = (inr (), with_adj u v weight G).
Proof.
  intros [adj_u E]. unfold adj_setitem, with_adj, bind, get_adj, put_adj. by rewrite E.
Qed.

Lemma nodes_with_node n (G : Graph V W) x :
  x ∈ nodes (with_node n G) ↔ x = n ∨ x ∈ nodes G.
Proof.
  unfold with_node, dict_mem. case_bool_decide as Hn.
  - split; [by right | by intros [->|?]].
  - unfold nodes. simpl. apply dict_keys_set_elem.
Qed.

Lemma neighbors_with_node n (G : Graph V W) x :
  dict_keys (G_adj G) = nodes G → neighbors (with_node n G) x = neighbors G x.
Proof.
  intros Hkeys. unfold with_node, dict_mem. case_bool_decide as Hn; [done|].
  unfold neighbors. simpl. rewrite dict_get_set. case_decide; [subst|done].
  fold (nodes G) in Hn. rewrite <- Hkeys in Hn. apply dict_get_None in Hn. by rewrite Hn.
Qed.

Lemma wf_with_node n (G : Graph V W) : wf_graph G → wf_graph (with_node n G).
Proof.
  intros Hwf. apply wf_graph_alt. split_and!.
  - unfold with_node, dict_mem. case_bool_decide; [apply Hwf|].
    apply dict_keys_set_NoDup, Hwf.
  - destruct Hwf as (_ & Hkeys & _).
    unfold with_node, dict_mem. case_bool_decide as Hn; [done|].
    unfold nodes in *. simpl. rewrite !dict_keys_set_notin; [by rewrite Hkeys | done |].
    by rewrite Hkeys.
  - intros x m. rewrite neighbors_with_node by apply Hwf.
    intros Hm. apply nodes_with_node. right. by eapply wf_neighbors_nodes.
Qed.

Lemma nodes_with_adj u v weight (G : Graph V W) : nodes (with_adj u v weight G) = nodes G.
Proof. unfold with_adj. by destruct (dict_get (G_adj G) u). Qed.

Lemma neighbors_with_adj u v weight (G : Graph V W) x m :
  is_Some (dict_get (G_adj G) u) →
  m ∈ neighbors (with_adj u v weight G) x ↔ (x = u ∧ m = v) ∨ m ∈ neighbors G x.
Proof.
  intros [adj_u E]. unfold with_adj, neighbors. rewrite E. simpl.
  rewrite dict_get_set. case_decide as Hx.
  - subst x. rewrite E, dict_keys_set_elem.
    split; [intros [->|?]; auto | intros [[_ ->]|?]; auto].
  - split; [by right | by intros [[-> _]|?]].
Qed.

Lemma wf_with_adj u v weight (G : Graph V W) :
  wf_graph G → u ∈ nodes G → v ∈ nodes G → wf_graph (with_adj u v weight G).
Proof.
  intros Hwf Hu Hv. pose proof (wf_adj_is_Some G u Hwf Hu) as Hsome.
  apply wf_graph_alt. rewrite nodes_with_adj. split_and!.
  - apply Hwf.
  - destruct Hwf as (_ & Hkeys & _), Hsome as [adj_u E].
    unfold with_adj. rewrite E. simpl. rewrite dict_keys_set_in; [done|].
    by eapply dict_get_Some_keys.
  - intros x m Hm. apply neighbors_with_adj in Hm as [[_ ->]|Hm]; [done| |done].
    by eapply wf_neighbors_nodes.
Qed.

(** On a well-formed graph [add_edge] raises nothing and leaves the graph
    [with_edge u v weight G]. *)
Lemma add_edge_run u v weight (G : Graph V W) :
  wf_graph G → add_edge u v weight G = (inr (), with_edge u v weight G).
Proof.
  intros Hwf. unfold add_edge, with_edge.
  set (G2 := with_node v (with_node u G)).
  assert (wf_graph G2) as Hwf2 by (by do 2 apply wf_with_node).
  assert (u ∈ nodes G2) as Hu by (apply nodes_with_node; right; apply nodes_with_node; by left).
  assert (v ∈ nodes G2) as Hv by (apply nodes_with_node; by left).
  erewrite bind_run; [|apply add_node_if_missing_run].
  erewrite bind_run; [|apply add_node_if_missing_run].
  fold G2. destruct (wf_adj_is_Some G2 u Hwf2 Hu) as [adj_u E].
  unfold bind at 1, get_adj. unfold bind at 1. rewrite E. simpl.
  erewrite bind_run; [|apply adj_setitem_run; by rewrite E].
  apply adj_setitem_run, wf_adj_is_Some.
  - by apply wf_with_adj.
  - by rewrite nodes_with_adj.
Qed.

Lemma wf_with_edge u v weight (G : Graph V W) : wf_graph G → wf_graph (with_edge u v weight G).
Proof.
  intros Hwf. unfold with_edge.
  set (G2 := with_node v (with_node u G)).
  assert (wf_graph G2) as Hwf2 by (by do 2 apply wf_with_node).
  assert (u ∈ nodes G2) as Hu by (apply nodes_with_node; right; apply nodes_with_node; by left).
  assert (v ∈ nodes G2) as Hv by (apply nodes_with_node; by left).
  apply wf_with_adj; [by apply wf_with_adj | by rewrite nodes_with_adj..].
Qed.

Lemma nodes_with_edge u v weight (G : Graph V W) x :
  x ∈ nodes (with_edge u v weight G) ↔ x = u ∨ x = v ∨ x ∈ nodes G.
Proof.
  unfold with_edge. rewrite !nodes_with_adj, !nodes_with_node. tauto.
Qed.

Lemma neighbors_with_edge u v weight (G : Graph V W) x m :
  wf_graph G →
  m ∈ neighbors (with_edge u v weight G) x ↔
  (x = u ∧ m = v) ∨ (x = v ∧ m = u) ∨ m ∈ neighbors G x.
Proof.
  intros Hwf. unfold with_edge.
  set (G2 := with_node v (with_node u G)).
  assert (wf_graph G2) as Hwf2 by (by do 2 apply wf_with_node).
  assert (u ∈ nodes G2) as Hu by (apply nodes_with_node; right; apply nodes_with_node; by left).
  assert (v ∈ nodes G2) as Hv by (apply nodes_with_node; by left).
  rewrite neighbors_with_adj.
  2:{ apply wf_adj_is_Some; [by apply wf_with_adj | by rewrite nodes_with_adj]. }
  rewrite neighbors_with_adj by (by apply wf_adj_is_Some).
  unfold G2. rewrite !neighbors_with_node; [tauto | apply Hwf |].
  apply (wf_with_node u G Hwf).
Qed.

Lemma undirected_with_edge u v weight (G : Graph V W) :
  wf_graph G → undirected G → undirected (with_edge u v weight G).
Proof.
  intros Hwf Hsym n m. rewrite !neighbors_with_edge by done.
  intros [[-> ->]|[[-> ->]|Hm]]; auto.
Qed.

End add_edge_facts.

Section add_edge_twice.
Context {V W : Type} `{EqDecision V} `{PyStr V}.

(** [add_edge] on any graph object, well-formed or not: the only exception
    is the [KeyError] of a node that [_adj] lacks. *)
Lemma add_edge_cases u v weight (G : Graph V W) :
  add_edge u v weight G =
  let G2 := with_node v (with_node u G) in
  match dict_get (G_adj G2) u with
  | None => (inl KeyError, G2)
  | Some _ =>
      let G3 := with_adj u v weight G2 in
      match dict_get (G_adj G3) v with
      | None => (inl KeyError, G3)
      | Some _ => (inr (), with_adj v u weight G3)
      end
  end.
Proof.
  unfold add_edge.
  erewrite bind_run; [|apply add_node_if_missing_run].
  erewrite bind_run; [|apply add_node_if_missing_run].
  cbv zeta. set (G2 := with_node v (with_node u G)).
  unfold bind at 1, get_adj. unfold bind at 1.
  destruct (dict_get (G_adj G2) u) as [adj_u|] eqn:E; simpl; [|done].
  erewrite bind_run; [|apply adj_setitem_run; by rewrite E].
  set (G3 := with_adj u v weight G2).
  destruct (dict_get (G_adj G3) v) as [adj_v|] eqn:E'.
  - apply adj_setitem_run. by rewrite E'.
  - unfold adj_setitem, bind, get_adj. by rewrite E'.
Qed.

Lemma with_node_id n (G : Graph V W) : n ∈ nodes G → with_node n G = G.
Proof. intros Hn. unfold with_node, dict_mem. by rewrite bool_decide_eq_true_2. Qed.

Lemma with_adj_id u v weight (G : Graph V W) :
  edge_weight G u v = Some weight → with_adj u v weight G = G.
Proof.
  unfold edge_weight, with_adj. destruct (dict_get (G_adj G) u) as [adj_u|] eqn:E; [|done].
  simpl. intros Hw. rewrite (dict_set_id adj_u), dict_set_id by done. by destruct G.
Qed.

Lemma edge_weight_with_adj u v weight (G : Graph V W) :
  is_Some (dict_get (G_adj G) u) → edge_weight (with_adj u v weight G) u v = Some weight.
Proof.
  intros [adj_u E]. unfold edge_weight, with_adj. rewrite E. simpl.
  rewrite dict_get_set_eq. simpl. apply dict_get_set_eq.
Qed.

Lemma edge_weight_with_adj_other u v u' v' weight (G : Graph V W) :
  edge_weight G u v = Some weight → edge_weight (with_adj u' v' weight G) u v = Some weight.
Proof.
  unfold edge_weight, with_adj. intros Hw.
  destruct (dict_get (G_adj G) u') as [adj_u'|] eqn:E; [|done]. simpl.
  rewrite dict_get_set. case_decide as Hu; [subst u'|done]. simpl.
  rewrite E in Hw. simpl in Hw. rewrite dict_get_set. by case_decide.
Qed.

(** Adding the same edge a second time changes nothing. *)
Lemma add_edge_idempotent u v weight (G : Graph V W) :
  (add_edge u v weight;; add_edge u v weight) G = add_edge u v weight G.
Proof.
  unfold bind at 1. rewrite (add_edge_cases u v weight G). cbv zeta.
  set (G2 := with_node v (with_node u G)).
  destruct (dict_get (G_adj G2) u) as [adj_u|] eqn:E; [|done].
  set (G3 := with_adj u v weight G2).
  destruct (dict_get (G_adj G3) v) as [adj_v|] eqn:E'; [|done].
  set (G4 := with_adj v u weight G3).
  assert (nodes G4 = nodes G2) as Hnodes by (unfold G4, G3; by rewrite !nodes_with_adj).
  assert (u ∈ nodes G4) as Hu.
  { rewrite Hnodes. apply nodes_with_node. right. apply nodes_with_node. by left. }
  assert (v ∈ nodes G4) as Hv by (rewrite Hnodes; apply nodes_with_node; by left).
  assert (edge_weight G4 u v = Some weight) as Huv.
  { apply edge_weight_with_adj_other, edge_weight_with_adj. by rewrite E. }
  assert (edge_weight G4 v u = Some weight) as Hvu.
  { apply edge_weight_with_adj. by rewrite E'. }
  rewrite add_edge_cases. cbv zeta.
  rewrite (with_node_id u), (with_node_id v) by done.
  rewrite !(with_adj_id u v) by done. rewrite !(with_adj_id v u) by done.
  unfold edge_weight in Huv, Hvu.
  destruct (dict_get (G_adj G4) u); [|done]. by destruct (dict_get (G_adj G4) v).
Qed.

End add_edge_twice.

(** ** What [read_graph_from_csv] returns *)

Section read_graph_facts.
Context {W : Type}.
Variable float : string → option W.

Lemma read_rows_run (rows : list Row) (G : Graph string W) :
  wf_graph G → undirected G →
  match for_each rows (read_row float) G with
  | (inr _, G') =>
      Forall (λ r, is_Some (float (Weight r))) rows ∧
      wf_graph G' ∧ undirected G' ∧
      (∀ n m, m ∈ neighbors G n → m ∈ neighbors G' n) ∧
      (∀ r, r ∈ rows →
         Target r ∈ neighbors G' (Source r) ∧ Source r ∈ neighbors G' (Target r))
  | (inl e, _) => e = ValueError ∧ Exists (λ r, float (Weight r) = None) rows
  end.
Proof.
  revert G. induction rows as [|r rows IH]; intros G Hwf Hsym; simpl.
  - split_and!; [done..|]. by intros r ?%elem_of_nil.
  - unfold bind at 1, read_row at 1, bind at 1.
    destruct (float (Weight r)) as [w|] eqn:Hw; simpl; [|split; [done | by left]].
    rewrite add_edge_run by done.
    set (G1 := with_edge (Source r) (Target r) w G).
    specialize (IH G1 (wf_with_edge _ _ _ _ Hwf) (undirected_with_edge _ _ _ _ Hwf Hsym)).
    destruct (for_each rows (read_row float) G1) as [[e|[]] G'].
    + destruct IH as [-> ?]. split; [done | by right].
    + destruct IH as (Hparse & Hwf' & Hsym' & Hmono & Hrows). split_and!; [|done..| |].
      * constructor; [by rewrite Hw | done].
      * intros n m Hm. apply Hmono, neighbors_with_edge; auto.
      * intros r' [->|Hr']%elem_of_cons; [|by apply Hrows].
        split; apply Hmono, neighbors_with_edge; auto.
Qed.

Lemma wf_empty_graph {V} `{EqDecision V} : wf_graph (@empty_graph V W).
Proof. split_and!; [apply NoDup_nil_2 | done | by apply Forall_nil]. Qed.

Lemma undirected_empty_graph {V} `{EqDecision V} : undirected (@empty_graph V W).
Proof. by intros n m ?%elem_of_nil. Qed.

(** C4, as the program has it: graph construction accepts self-loops.  On
    rows whose weights are all numbers it raises nothing, with or without an
    entry from a vertex to itself, and makes the two ends of every row
    neighbours of each other, so the vertex of a self-loop is its own
    neighbour; the only exception of construction is the [ValueError] of a
    weight that is not a number.  Adding an edge a second time is idempotent:
    the graph stays as the first addition left it. *)
Theorem construction_accepts_self_loops :
  (∀ rows, Forall (λ r, is_Some (float (Weight r))) rows →
     ∃ G, read_graph_from_csv float rows = inr G ∧ wf_graph G ∧ undirected G ∧
          ∀ r, r ∈ rows →
            Target r ∈ neighbors G (Source r) ∧ Source r ∈ neighbors G (Target r)) ∧
  (∀ rows e, read_graph_from_csv float rows = inl e →
     e = ValueError ∧ Exists (λ r, float (Weight r) = None) rows) ∧
  (∀ (u v : string) (weight : W) (G : Graph string W),
     (add_edge u v weight;; add_edge u v weight) G = add_edge u v weight G).
Proof.
  split_and!.
  - intros rows Hparse. unfold read_graph_from_csv.
    pose proof (read_rows_run rows empty_graph wf_empty_graph undirected_empty_graph) as Hrun.
    destruct (for_each rows (read_row float) empty_graph) as [[e|[]] G].
    + destruct Hrun as [_ Hbad]. apply Exists_exists in Hbad as (r & Hr & Hnone).
      rewrite Forall_forall in Hparse. specialize (Hparse r Hr).
      rewrite Hnone in Hparse. by destruct Hparse.
    + destruct Hrun as (_ & Hwf & Hsym & _ & Hrows). eauto.
  - intros rows e. unfold read_graph_from_csv.
    pose proof (read_rows_run rows empty_graph wf_empty_graph undirected_empty_graph) as Hrun.
    destruct (for_each rows (read_row float) empty_graph) as [[e'|[]] G]; [|done].
    by intros [= <-].
  - intros u v weight G. apply add_edge_idempotent.
Qed.

End read_graph_facts.

(** ** Path graphs *)

Section path_graphs.
Context {V W : Type} `{EqDecision V} `{PyStr V}.

(** The pairs of vertices that follow each other in [p]. *)
Definition consecutive (p : list V) : list (V * V) := zip p (tail p).

(** [G] is the path that visits the vertices in the order [p]: its vertices
    are those of [p], each once, and two of them are neighbours exactly when
    they follow each other in [p]. *)
Definition is_path (G : Graph V W) (p : list V) : Prop :=
  NoDup p ∧
  Forall (λ v, v ∈ p) (nodes G) ∧
  Forall (λ v, v ∈ nodes G) p ∧
  Forall (λ u, Forall (λ v, v ∈ neighbors G u ↔
                             (u, v) ∈ consecutive p ∨ (v, u) ∈ consecutive p) p) p.

#[global] Instance is_path_dec G p : Decision (is_path G p).
Proof. unfold is_path. apply _. Defined.











End path_graphs.

Section path_solved.
Context {V W : Type} `{EqDecision V} `{PyStr V}.
Variable solve : LpProblem V → V → Z.
Hypothesis solve_exact : exact_solver solve.


End path_solved.

(** ** Closed neighbourhoods *)

Section closed_neighborhoods.
Context {V W : Type} `{EqDecision V}.

(** [v] and its neighbours. *)
Definition closed_neighborhood (G : Graph V W) (v : V) : list V := v :: neighbors G v.

Lemma filter_complement_length (P : V → Prop) `{∀ x, Decision (P x)} (l : list V) :
  length (filter P l) + length (filter (λ x, ¬ P x) l) = length l.
Proof.
  induction l as [|x l IH]; [done|].
  rewrite !filter_cons. destruct (decide (P x)).
  - rewrite decide_False by tauto. simpl. lia.
  - rewrite decide_True by done. simpl. lia.
Qed.

(** The undirectedness of a well-formed graph, as a test over its nodes. *)
Lemma undirected_by_nodes (G : Graph V W) :
  wf_graph G →
  Forall (λ n, Forall (λ m, n ∈ neighbors G m) (neighbors G n)) (nodes G) →
  undirected G.
Proof.
  intros (_ & Hkeys & _) Hall n m Hm. rewrite Forall_forall in Hall.
  assert (n ∈ nodes G) as Hn.
  { rewrite <- Hkeys. unfold neighbors in Hm.
    destruct (dict_get (G_adj G) n) eqn:E; [|by apply elem_of_nil in Hm].
    by eapply dict_get_Some_keys. }
  specialize (Hall n Hn). rewrite Forall_forall in Hall. auto.
Qed.

End closed_neighborhoods.

(** ** The value a caller receives, and calls with a budget *)

(** The value of a call as its caller holds it.  The function ends with
    [return dominating_set], so the value is the list itself
    ([ResultList]).  Modelled from the spec: [ResultRecord], the result
    record of its external interface (the vertices, their number and the
    [optimal] flag), which the program never builds. *)
Inductive result_value (V : Type) : Type :=
| ResultList (dominating_set : list V)
| ResultRecord (vertices : list V) (size : nat) (optimal : bool).
Arguments ResultList {V} _.
Arguments ResultRecord {V} _ _ _.

(** An argument of a call beyond the graph: positional, or by keyword. *)
Inductive argument : Type :=
| Positional (value : Z)
| Keyword (name : string) (value : Z).

Section calls.
Context {V W : Type} `{EqDecision V} `{PyStr V}.
Variable solve : LpProblem V → V → Z.

(** [find_minimum_dominating_set(G)] as its caller sees it: the value
    returned, or the exception raised. *)
Definition returned_value (G : Graph V W) : exn + result_value V :=
  match (find_minimum_dominating_set solve G).1 with
  | inr dominating_set => inr (ResultList dominating_set)
  | inl e => inl e
  end.

(** [find_minimum_dominating_set(G, ...)] with the further arguments [args].
    The function is defined with the one parameter [G]
    ([def find_minimum_dominating_set(G):]), so Python raises [TypeError] for
    every further argument, positional or by keyword, before the body
    runs. *)
Definition call_find_minimum_dominating_set (args : list argument) : M V W (list V) :=
  match args with
  | [] => find_minimum_dominating_set solve
  | _ :: _ => raise TypeError
  end.

(** C5, as the program has it: on the graph with no vertices the solve
    operation raises nothing and returns the empty list, of size 0, which is
    a dominating set of minimum size; the value returned is the list itself
    and carries no [optimal] flag. *)
Theorem empty_graph_returns_bare_list :
  returned_value (@empty_graph V W) = inr (ResultList []) ∧
  length (@nil V) = 0 ∧
  is_dominating_set (@empty_graph V W) [] ∧
  ∀ D, is_dominating_set (@empty_graph V W) D → length (@nil V) ≤ length D.
Proof.
  split_and!; [done | done | by intros v ?%elem_of_nil | intros; simpl; lia].
Qed.

(** C8, as the program has it: the solve operation has no budget.  On every
    graph a call with a budget, or with any argument beyond the graph,
    raises [TypeError] before any solving and leaves the graph as it is; it
    returns no result, and this outcome differs from that of a call that
    succeeds, which is a returned list. *)
Theorem budget_call_raises_TypeError (args : list argument) (G : Graph V W) :
  args ≠ [] →
  call_find_minimum_dominating_set args G = (inl TypeError, G) ∧
  ∀ D, (call_find_minimum_dominating_set args G).1 ≠ inr D.
Proof. intros Hargs. by destruct args. Qed.

End calls.

(** ** Examples *)

Section examples.
Local Open Scope string_scope.

(** The path A-B-C-D-E, as [read_graph_from_csv] builds it from the rows
    A,B / B,C / C,D / D,E with weight 1. *)
Definition path_ABCDE : Graph string Z :=
  mkGraph
    [("A", ()); ("B", ()); ("C", ()); ("D", ()); ("E", ())]
    [("A", [("B", 1%Z)]); ("B", [("A", 1%Z); ("C", 1%Z)]);
     ("C", [("B", 1%Z); ("D", 1%Z)]); ("D", [("C", 1%Z); ("E", 1%Z)]);
     ("E", [("D", 1%Z)])].

(** The rows of the file of [path_ABCDE]. *)
Definition path_rows : list Row :=
  [mkRow "A" "B" "1"; mkRow "B" "C" "1"; mkRow "C" "D" "1"; mkRow "D" "E" "1"].

(** The same path with other weights. *)
Definition path_ABCDE_reweighted : Graph string Z :=
  mkGraph
    [("A", ()); ("B", ()); ("C", ()); ("D", ()); ("E", ())]
    [("A", [("B", 7%Z)]); ("B", [("A", 7%Z); ("C", 0%Z)]);
     ("C", [("B", 0%Z); ("D", 3%Z)]); ("D", [("C", 3%Z); ("E", 12%Z)]);
     ("E", [("D", 12%Z)])].


(** A graph of nine vertices that [u] and [v] dominate together, and no
    single vertex does. *)
Definition two_hub_graph : Graph string Z :=
  mkGraph
    [("u", ()); ("a1", ()); ("a2", ()); ("a3", ()); ("g", ()); ("v", ());
     ("b1", ()); ("b2", ()); ("b3", ())]
    [("u", [("a1", 1%Z); ("a2", 1%Z); ("a3", 1%Z); ("g", 1%Z)]);
     ("a1", [("u", 1%Z); ("g", 1%Z)]);
     ("a2", [("u", 1%Z); ("g", 1%Z)]);
     ("a3", [("u", 1%Z)]);
     ("g", [("u", 1%Z); ("a1", 1%Z); ("a2", 1%Z); ("b1", 1%Z); ("b2", 1%Z)]);
     ("v", [("b1", 1%Z); ("b2", 1%Z); ("b3", 1%Z)]);
     ("b1", [("v", 1%Z); ("g", 1%Z)]);
     ("b2", [("v", 1%Z); ("g", 1%Z)]);
     ("b3", [("v", 1%Z)])].

(** Two edges, a-b to x and a_b to y: PuLP gives the vertices a-b and a_b
    the same name. *)
Definition colliding_graph : Graph string Z :=
  mkGraph
    [("a-b", ()); ("x", ()); ("a_b", ()); ("y", ())]
    [("a-b", [("x", 1%Z)]); ("x", [("a-b", 1%Z)]);
     ("a_b", [("y", 1%Z)]); ("y", [("a_b", 1%Z)])].


(** A file of one row, from A to A. *)
Definition self_loop_rows : list Row := [mkRow "A" "A" "1.0"].

(** A stand-in for [float] that reads the one weight of [self_loop_rows]. *)
Definition float_of_1_0 (s : string) : option Z :=
  if decide (s = "1.0") then Some 1%Z else None.

(** A call with the budget [maxNodes=0]. *)
Definition budget_maxNodes_0 : list argument := [Keyword "maxNodes" 0].

Example pulp_name_example : pulp_name "a-b c+d[e]/f>" = "a_b_c_d_e__f_".
Proof. reflexivity. Qed.

Example expression_name_example : expression_name "a-b c+d[e]/f>" = "a_b_c_d_e_/f>".
Proof. reflexivity. Qed.

Example path_ABCDE_brute_force : find_minimum_dominating_set brute_force_solve path_ABCDE
  = (inr ["B"; "E"], path_ABCDE).
Proof. vm_compute. reflexivity. Qed.

Example two_hub_graph_minimum : brute_force_minimum two_hub_graph = 2.
Proof. vm_compute. reflexivity. Qed.

Example colliding_graph_raises :
  find_minimum_dominating_set brute_force_solve colliding_graph
  = (inl PulpError, colliding_graph).
Proof. vm_compute. reflexivity. Qed.

Lemma path_rows_read (float : string → option Z) :
  float "1" = Some 1%Z → read_graph_from_csv float path_rows = inr path_ABCDE.
Proof.
  intros Hw. unfold read_graph_from_csv, path_rows. simpl.
  do 3 (unfold bind at 1, read_row at 1, bind at 1; simpl; rewrite Hw; simpl).
  unfold bind at 1, read_row at 1, bind at 1. simpl. rewrite Hw. reflexivity.
Qed.

Lemma self_loop_rows_read {W} (float : string → option W) w :
  float "1.0" = Some w →
  read_graph_from_csv float self_loop_rows = inr (mkGraph [("A", ())] [("A", [("A", w)])]).
Proof.
  intros Hw. unfold read_graph_from_csv, self_loop_rows. simpl.
  unfold bind at 1, read_row at 1, bind at 1. simpl. rewrite Hw. reflexivity.
Qed.

End examples.

(** ** Instances of the theorems, and three properties the program lacks *)

Section instances.

Lemma wf_path_ABCDE : wf_graph path_ABCDE.
Proof. compute_done. Qed.

Lemma distinct_names_path_ABCDE : distinct_names path_ABCDE.
Proof. compute_done. Qed.

Lemma wf_two_hub_graph : wf_graph two_hub_graph.
Proof. compute_done. Qed.

Lemma distinct_names_two_hub_graph : distinct_names two_hub_graph.
Proof. compute_done. Qed.





Lemma weights_do_not_interfere_path_ABCDE :
  erase_weights path_ABCDE = erase_weights path_ABCDE_reweighted ∧
  (find_minimum_dominating_set brute_force_solve path_ABCDE).1 =
  (find_minimum_dominating_set brute_force_solve path_ABCDE_reweighted).1.
Proof.
  split; [reflexivity|].
  apply (weights_do_not_interfere brute_force_solve path_ABCDE path_ABCDE_reweighted).
  reflexivity.
Defined.






Lemma budget_call_raises_TypeError_path :
  budget_maxNodes_0 ≠ [] ∧
  call_find_minimum_dominating_set brute_force_solve budget_maxNodes_0 path_ABCDE =
    (inl TypeError, path_ABCDE) ∧
  ∀ D, (call_find_minimum_dominating_set brute_force_solve budget_maxNodes_0 path_ABCDE).1
       ≠ inr D.
Proof.
  assert (budget_maxNodes_0 ≠ []) as Hargs by discriminate.
  split; [exact Hargs|].
  exact (budget_call_raises_TypeError brute_force_solve budget_maxNodes_0 path_ABCDE Hargs).
Defined.

Lemma construction_accepts_self_loop_rows :
  Forall (λ r, is_Some (float_of_1_0 (Weight r))) self_loop_rows ∧
  ∃ G, read_graph_from_csv float_of_1_0 self_loop_rows = inr G ∧ wf_graph G ∧ undirected G ∧
       ∀ r, r ∈ self_loop_rows →
         Target r ∈ neighbors G (Source r) ∧ Source r ∈ neighbors G (Target r).
Proof.
  assert (Forall (λ r, is_Some (float_of_1_0 (Weight r))) self_loop_rows) as Hparse.
  { repeat constructor. by eexists. }
  split; [exact Hparse|].
  exact (proj1 (construction_accepts_self_loops float_of_1_0) self_loop_rows Hparse).
Defined.

(** C4 does not hold as stated: a file whose only row is a self-loop is
    read without any error, whatever number [float] makes of the weight, and
    the graph has the vertex A as its own neighbour. *)
Lemma self_loop_is_accepted :
  (∃ r, r ∈ self_loop_rows ∧ Source r = Target r) ∧
  ∀ (W : Type) (float : string → option W) (w : W),
    float "1.0"%string = Some w →
    read_graph_from_csv float self_loop_rows =
    inr (mkGraph [("A"%string, ())] [("A"%string, [("A"%string, w)])]).
Proof.
  split.
  - exists (mkRow "A" "A" "1.0")%string. split; [left | reflexivity].
  - intros W float w Hw. by apply self_loop_rows_read.
Qed.

(** C5 does not hold as stated: on the graph with no vertices the value
    the solve operation returns is the empty list, not a record with an
    [optimal] flag, set or not. *)
Lemma empty_graph_result_has_no_flag :
  returned_value brute_force_solve (@empty_graph string Z) = inr (ResultList []) ∧
  ¬ ∃ vertices size optimal,
      returned_value brute_force_solve (@empty_graph string Z) =
      inr (ResultRecord vertices size optimal).
Proof.
  split; [reflexivity|]. intros (vertices & size & optimal & Hrecord). discriminate Hrecord.
Qed.

(** C8 does not hold as stated: on the path A-B-C-D-E the call with the
    budget [maxNodes=0] raises [TypeError] and returns no result. *)
Lemma budget_call_crashes :
  (call_find_minimum_dominating_set brute_force_solve budget_maxNodes_0 path_ABCDE).1 =
    inl TypeError ∧
  ¬ ∃ D, (call_find_minimum_dominating_set brute_force_solve budget_maxNodes_0 path_ABCDE).1 =
         inr D.
Proof.
  split; [reflexivity|]. intros [D HD]. discriminate HD.
Qed.

End instances.

(** * Further properties of the program *)

(** ** [add_edge]: what is stored and what is kept *)

Section add_edge_more.
Context {V W : Type} `{EqDecision V} `{PyStr V}.

(** [l] with [x] at its end, unless [x] is in [l] already: how the keys of a
    Python dictionary grow. *)
Definition add_new (l : list V) (x : V) : list V :=
  if decide (x ∈ l) then l else l ++ [x].

(** The edge of [u] and [v], in either direction. *)
Definition joins (u v x y : V) : Prop := (x = u ∧ y = v) ∨ (x = v ∧ y = u).

#[global] Instance joins_dec u v x y : Decision (joins u v x y).
Proof. unfold joins. apply _. Defined.

Lemma nodes_with_node_order n (G : Graph V W) : nodes (with_node n G) = add_new (nodes G) n.
Proof.
  unfold with_node, dict_mem, add_new, nodes.
  case_bool_decide as Hn.
  - by rewrite decide_True.
  - rewrite decide_False by done. simpl. by apply dict_keys_set_notin.
Qed.

Lemma nodes_with_edge_order u v weight (G : Graph V W) :
  nodes (with_edge u v weight G) = add_new (add_new (nodes G) u) v.
Proof. unfold with_edge. by rewrite !nodes_with_adj, !nodes_with_node_order. Qed.

Lemma add_new_prefix (l : list V) x : l `prefix_of` add_new l x.
Proof. unfold add_new. case_decide; [done | by apply prefix_app_r]. Qed.

Lemma edge_weight_with_node n (G : Graph V W) x y :
  dict_keys (G_adj G) = nodes G → edge_weight (with_node n G) x y = edge_weight G x y.
Proof.
  intros Hkeys. unfold with_node, dict_mem. case_bool_decide as Hn; [done|].
  unfold edge_weight. simpl. rewrite dict_get_set. case_decide; [subst|done].
  fold (nodes G) in Hn. rewrite <- Hkeys in Hn. apply dict_get_None in Hn. by rewrite Hn.
Qed.

Lemma edge_weight_with_adj_cases u v weight (G : Graph V W) x y :
  is_Some (dict_get (G_adj G) u) →
  edge_weight (with_adj u v weight G) x y =
  if decide (x = u ∧ y = v) then Some weight else edge_weight G x y.
Proof.
  intros [adj_u E]. unfold edge_weight, with_adj. rewrite E. simpl.
  rewrite dict_get_set. destruct (decide (u = x)) as [->|Hx]; simpl.
  - rewrite E. simpl. rewrite dict_get_set. destruct (decide (v = y)) as [->|Hy].
    + by rewrite decide_True.
    + rewrite decide_False; [done|]. by intros [_ ->].
  - rewrite decide_False; [done|]. by intros [-> _].
Qed.

(** The weights after [add_edge(u, v, weight)]: [weight] between [u] and
    [v], in both directions, and what was there between all other pairs. *)
Lemma edge_weight_with_edge u v weight (G : Graph V W) x y :
  wf_graph G →
  edge_weight (with_edge u v weight G) x y =
  if decide (joins u v x y) then Some weight else edge_weight G x y.
Proof.
  intros Hwf. unfold with_edge.
  set (G2 := with_node v (with_node u G)).
  assert (wf_graph G2) as Hwf2 by (by do 2 apply wf_with_node).
  assert (u ∈ nodes G2) as Hu by (apply nodes_with_node; right; apply nodes_with_node; by left).
  assert (v ∈ nodes G2) as Hv by (apply nodes_with_node; by left).
  rewrite edge_weight_with_adj_cases.
  2:{ apply wf_adj_is_Some; [by apply wf_with_adj | by rewrite nodes_with_adj]. }
  rewrite edge_weight_with_adj_cases by (by apply wf_adj_is_Some).
  unfold G2. rewrite !edge_weight_with_node; [|apply Hwf | apply (wf_with_node u G Hwf)].
  unfold joins. repeat case_decide; tauto || done.
Qed.

(** X1: on a well-formed graph [add_edge] raises nothing and keeps the
    graph well-formed; an undirected graph stays undirected. *)
Theorem add_edge_keeps_invariant (u v : V) (weight : W) (G : Graph V W) :
  wf_graph G →
  (add_edge u v weight G).1 = inr () ∧
  wf_graph (add_edge u v weight G).2 ∧
  (undirected G → undirected (add_edge u v weight G).2).
Proof.
  intros Hwf. rewrite add_edge_run by done. simpl. split_and!; [done| |].
  - by apply wf_with_edge.
  - by apply undirected_with_edge.
Qed.

(** X2: after [add_edge(u, v, weight)] on a well-formed graph the weight
    stored between [u] and [v] is [weight] in both directions, and the
    weight between every other pair of vertices is what it was. *)
Theorem add_edge_weights (u v : V) (weight : W) (G : Graph V W) :
  wf_graph G →
  edge_weight (add_edge u v weight G).2 u v = Some weight ∧
  edge_weight (add_edge u v weight G).2 v u = Some weight ∧
  ∀ x y, ¬ joins u v x y →
    edge_weight (add_edge u v weight G).2 x y = edge_weight G x y.
Proof.
  intros Hwf. rewrite add_edge_run by done. simpl. split_and!.
  - rewrite edge_weight_with_edge by done. rewrite decide_True; [done | by left].
  - rewrite edge_weight_with_edge by done. rewrite decide_True; [done | by right].
  - intros x y Hxy. rewrite edge_weight_with_edge by done. by rewrite decide_False.
Qed.

(** X3: [add_edge(u, v, weight)] keeps the vertices of the graph in their
    order and puts a new [u] and then a new [v] after them; the neighbours
    afterwards are the old ones and [v] for [u], [u] for [v]. *)
Theorem add_edge_vertices_and_neighbors (u v : V) (weight : W) (G : Graph V W) :
  wf_graph G →
  nodes (add_edge u v weight G).2 = add_new (add_new (nodes G) u) v ∧
  nodes G `prefix_of` nodes (add_edge u v weight G).2 ∧
  ∀ x m, m ∈ neighbors (add_edge u v weight G).2 x ↔ joins u v x m ∨ m ∈ neighbors G x.
Proof.
  intros Hwf. rewrite add_edge_run by done. simpl. split_and!.
  - apply nodes_with_edge_order.
  - rewrite nodes_with_edge_order. etrans; apply add_new_prefix.
  - intros x m. rewrite neighbors_with_edge by done. unfold joins. tauto.
Qed.

End add_edge_more.

(** ** [read_graph_from_csv]: the graph of a file *)

Section read_graph_more.
Context {W : Type}.
Variable float : string → option W.

(** Both ends of every row, in the order of the file. *)
Definition endpoints (rows : list Row) : list string :=
  flat_map (λ r, [Source r; Target r]) rows.

(** The row [r] is an edge between [x] and [y]. *)
Definition row_joins (r : Row) (x y : string) : Prop :=
  joins (Source r) (Target r) x y.

Lemma read_rows_nil (G : Graph string W) : for_each [] (read_row float) G = (inr (), G).
Proof. done. Qed.

(** One turn of the loop over the rows, on a weight that is a number. *)
Lemma read_rows_cons r rows (G : Graph string W) w :
  wf_graph G → float (Weight r) = Some w →
  for_each (r :: rows) (read_row float) G =
  for_each rows (read_row float) (with_edge (Source r) (Target r) w G).
Proof.
  intros Hwf Hw. simpl. unfold bind at 1, read_row at 1, bind at 1.
  rewrite Hw. simpl. by rewrite add_edge_run.
Qed.

(** One turn of the loop on a weight that is not a number: [ValueError],
    the rest of the file unread. *)
Lemma read_rows_cons_error r rows (G : Graph string W) :
  float (Weight r) = None → for_each (r :: rows) (read_row float) G = (inl ValueError, G).
Proof.
  intros Hw. simpl. unfold bind at 1, read_row at 1, bind at 1. by rewrite Hw.
Qed.

(** Induction over the rows of a file that is read to its end. *)
Lemma read_rows_ind (P : list Row → Graph string W → Graph string W → Prop) :
  (∀ G, wf_graph G → P [] G G) →
  (∀ r rows G G' w,
     wf_graph G → float (Weight r) = Some w →
     for_each rows (read_row float) (with_edge (Source r) (Target r) w G) = (inr (), G') →
     P rows (with_edge (Source r) (Target r) w G) G' → P (r :: rows) G G') →
  ∀ rows G G', wf_graph G → for_each rows (read_row float) G = (inr (), G') → P rows G G'.
Proof.
  intros Hnil Hcons rows. induction rows as [|r rows IH]; intros G G' Hwf Hrun.
  - rewrite read_rows_nil in Hrun. injection Hrun as <-. by apply Hnil.
  - destruct (float (Weight r)) as [w|] eqn:Hw.
    + rewrite (read_rows_cons r rows G w) in Hrun by done.
      apply (Hcons r rows G G' w); [done..|]. apply IH; [by apply wf_with_edge | done].
    + by rewrite read_rows_cons_error in Hrun.
Qed.

Lemma read_graph_from_csv_inr rows G :
  read_graph_from_csv float rows = inr G →
  for_each rows (read_row float) empty_graph = (inr (), G).
Proof.
  unfold read_graph_from_csv.
  destruct (for_each rows (read_row float) empty_graph) as [[e|[]] G']; [done|].
  by intros [= ->].
Qed.

Lemma read_rows_nodes rows (G G' : Graph string W) :
  wf_graph G → for_each rows (read_row float) G = (inr (), G') →
  ∀ x, x ∈ nodes G' ↔ x ∈ nodes G ∨ x ∈ endpoints rows.
Proof.
  revert rows G G'. apply (read_rows_ind (λ rows G G',
    ∀ x, x ∈ nodes G' ↔ x ∈ nodes G ∨ x ∈ endpoints rows)).
  - intros G _ x. unfold endpoints. simpl. rewrite elem_of_nil. tauto.
  - intros r rows G G' w Hwf Hw _ IH x. rewrite IH, nodes_with_edge.
    unfold endpoints. simpl. rewrite !elem_of_cons. tauto.
Qed.

Lemma read_rows_neighbors rows (G G' : Graph string W) :
  wf_graph G → for_each rows (read_row float) G = (inr (), G') →
  ∀ x m, m ∈ neighbors G' x ↔ m ∈ neighbors G x ∨ ∃ r, r ∈ rows ∧ row_joins r x m.
Proof.
  revert rows G G'. apply (read_rows_ind (λ rows G G',
    ∀ x m, m ∈ neighbors G' x ↔ m ∈ neighbors G x ∨ ∃ r, r ∈ rows ∧ row_joins r x m)).
  - intros G _ x m. split; [by left|]. intros [?|(r & Hr & _)]; [done|].
    by apply elem_of_nil in Hr.
  - intros r rows G G' w Hwf Hw _ IH x m. rewrite IH, neighbors_with_edge by done.
    unfold row_joins, joins. split.
    + intros [[?|[?|?]]|(r' & Hr' & ?)]; [right; exists r; split; [left|tauto]..| by left |].
      right. exists r'. split; [by right | done].
    + intros [?|(r' & [->|Hr']%elem_of_cons & ?)]; [tauto | tauto |].
      right. eauto.
Qed.

Lemma read_rows_order rows (G G' : Graph string W) :
  wf_graph G → for_each rows (read_row float) G = (inr (), G') →
  nodes G' = foldl add_new (nodes G) (endpoints rows).
Proof.
  revert rows G G'. apply (read_rows_ind (λ rows G G',
    nodes G' = foldl add_new (nodes G) (endpoints rows))).
  - done.
  - intros r rows G G' w Hwf Hw _ IH. rewrite IH, nodes_with_edge_order. done.
Qed.

Lemma read_rows_wf rows (G G' : Graph string W) :
  wf_graph G → for_each rows (read_row float) G = (inr (), G') → wf_graph G'.
Proof.
  revert rows G G'. apply (read_rows_ind (λ rows G G', wf_graph G')); [done|].
  by intros r rows G G' w Hwf Hw _ IH.
Qed.

Lemma read_rows_weights_kept rows (G G' : Graph string W) :
  wf_graph G → for_each rows (read_row float) G = (inr (), G') →
  ∀ x y, Forall (λ r, ¬ row_joins r x y) rows → edge_weight G' x y = edge_weight G x y.
Proof.
  revert rows G G'. apply (read_rows_ind (λ rows G G',
    ∀ x y, Forall (λ r, ¬ row_joins r x y) rows → edge_weight G' x y = edge_weight G x y)).
  - done.
  - intros r rows G G' w Hwf Hw _ IH x y [Hr Hrows]%Forall_cons.
    rewrite IH by done. rewrite edge_weight_with_edge by done. by rewrite decide_False.
Qed.

Lemma read_rows_weights_symmetric rows (G G' : Graph string W) :
  wf_graph G → for_each rows (read_row float) G = (inr (), G') →
  (∀ x y, edge_weight G x y = edge_weight G y x) →
  ∀ x y, edge_weight G' x y = edge_weight G' y x.
Proof.
  revert rows G G'. apply (read_rows_ind (λ rows G G',
    (∀ x y, edge_weight G x y = edge_weight G y x) →
    ∀ x y, edge_weight G' x y = edge_weight G' y x)).
  - done.
  - intros r rows G G' w Hwf Hw _ IH Hsym. apply IH. intros x y.
    rewrite !edge_weight_with_edge by done. unfold joins.
    repeat case_decide; first [done | tauto | apply Hsym].
Qed.

Lemma read_rows_last_weight pre r post (G G' : Graph string W) w :
  wf_graph G → for_each (pre ++ r :: post) (read_row float) G = (inr (), G') →
  float (Weight r) = Some w →
  Forall (λ r', ¬ row_joins r' (Source r) (Target r)) post →
  edge_weight G' (Source r) (Target r) = Some w.
Proof.
  revert G. induction pre as [|r0 pre IH]; intros G Hwf Hrun Hw Hpost.
  - simpl app in Hrun. rewrite (read_rows_cons r post G w) in Hrun by done.
    rewrite (read_rows_weights_kept post (with_edge (Source r) (Target r) w G) G');
      [|by apply wf_with_edge|done..].
    rewrite edge_weight_with_edge by done. rewrite decide_True; [done | by left].
  - change ((r0 :: pre) ++ r :: post) with (r0 :: (pre ++ r :: post)) in Hrun.
    destruct (float (Weight r0)) as [w0|] eqn:Hw0.
    + rewrite (read_rows_cons r0 _ G w0) in Hrun by done.
      apply (IH (with_edge (Source r0) (Target r0) w0 G)); [by apply wf_with_edge | done..].
    + by rewrite read_rows_cons_error in Hrun.
Qed.

End read_graph_more.

Section read_graph_properties.
Context {W : Type}.
Variable float : string → option W.

Lemma foldl_add_new_NoDup (l : list string) (acc : list string) :
  NoDup acc → NoDup (foldl add_new acc l).
Proof.
  revert acc. induction l as [|x l IH]; intros acc Hacc; simpl; [done|].
  apply IH. unfold add_new. case_decide; [done|].
  apply NoDup_app. split_and!; [done| |apply NoDup_singleton].
  by intros y Hy ->%list_elem_of_singleton.
Qed.

(** X4: the vertices of the graph of a file are the sources and targets of
    its rows, each once, in the order in which the file first names them
    (the order in which [G.nodes()] yields them). *)
Theorem read_graph_vertices (rows : list Row) (G : Graph string W) :
  read_graph_from_csv float rows = inr G →
  nodes G = foldl add_new [] (endpoints rows) ∧
  NoDup (nodes G) ∧
  ∀ x, x ∈ nodes G ↔ ∃ r, r ∈ rows ∧ (x = Source r ∨ x = Target r).
Proof.
  intros Hrun%read_graph_from_csv_inr.
  pose proof (read_rows_order float rows _ G wf_empty_graph Hrun) as Horder.
  split_and!; [done| |].
  - rewrite Horder. apply foldl_add_new_NoDup, NoDup_nil_2.
  - intros x. rewrite (read_rows_nodes float rows _ G wf_empty_graph Hrun).
    unfold endpoints. split.
    + intros [Hx|Hx]; [by apply elem_of_nil in Hx|].
      apply list_elem_of_In, in_flat_map in Hx as (r & Hr & Hx).
      exists r. split; [by apply list_elem_of_In|].
      apply list_elem_of_In in Hx. rewrite !elem_of_cons, elem_of_nil in Hx. tauto.
    + intros (r & Hr & Hx). right. apply list_elem_of_In, in_flat_map.
      exists r. split; [by apply list_elem_of_In|].
      apply list_elem_of_In. rewrite !elem_of_cons. tauto.
Qed.

(** X5: in the graph of a file two vertices are neighbours exactly when
    some row of the file joins them, in either direction. *)
Theorem read_graph_edges (rows : list Row) (G : Graph string W) :
  read_graph_from_csv float rows = inr G →
  ∀ x y, y ∈ neighbors G x ↔
    ∃ r, r ∈ rows ∧ ((Source r = x ∧ Target r = y) ∨ (Source r = y ∧ Target r = x)).
Proof.
  intros Hrun%read_graph_from_csv_inr x y.
  rewrite (read_rows_neighbors float rows _ G wf_empty_graph Hrun).
  unfold row_joins, joins. split.
  - intros [Hy|(r & Hr & Hj)]; [by apply elem_of_nil in Hy|].
    exists r. split; [done|]. destruct Hj as [[-> ->]|[-> ->]]; auto.
  - intros (r & Hr & Hj). right. exists r. split; [done|].
    destruct Hj as [[<- <-]|[<- <-]]; auto.
Qed.

(** X6: the graph of a file has no isolated vertex: every vertex has a
    neighbour (itself, when its only rows are self-loops). *)
Theorem read_graph_no_isolated_vertex (rows : list Row) (G : Graph string W) (v : string) :
  read_graph_from_csv float rows = inr G → v ∈ nodes G → neighbors G v ≠ [].
Proof.
  intros Hrun%read_graph_from_csv_inr Hv.
  apply (read_rows_nodes float rows _ G wf_empty_graph Hrun) in Hv as [Hv|Hv];
    [by apply elem_of_nil in Hv|].
  apply list_elem_of_In, in_flat_map in Hv as (r & Hr%list_elem_of_In & Hv%list_elem_of_In).
  assert (∃ m, m ∈ neighbors G v) as [m Hm].
  { rewrite !elem_of_cons, elem_of_nil in Hv. destruct Hv as [->|[->|[]]].
    - exists (Target r). apply (read_rows_neighbors float rows _ G wf_empty_graph Hrun).
      right. exists r. split; [done | by left].
    - exists (Source r). apply (read_rows_neighbors float rows _ G wf_empty_graph Hrun).
      right. exists r. split; [done | by right]. }
  intros Hnil. rewrite Hnil in Hm. by apply elem_of_nil in Hm.
Qed.

(** X7: in the graph of a file the weight of an edge is the same in both
    directions. *)
Theorem read_graph_weights_symmetric (rows : list Row) (G : Graph string W) :
  read_graph_from_csv float rows = inr G →
  ∀ x y, edge_weight G x y = edge_weight G y x.
Proof.
  intros Hrun%read_graph_from_csv_inr.
  by apply (read_rows_weights_symmetric float rows empty_graph G wf_empty_graph Hrun).
Qed.

(** X8: when a file names an edge more than once, the weight of the last
    row that names it is the one stored, in both directions. *)
Theorem read_graph_last_weight (pre post : list Row) (r : Row) (G : Graph string W) (w : W) :
  read_graph_from_csv float (pre ++ r :: post) = inr G →
  float (Weight r) = Some w →
  Forall (λ r', ¬ row_joins r' (Source r) (Target r)) post →
  edge_weight G (Source r) (Target r) = Some w ∧
  edge_weight G (Target r) (Source r) = Some w.
Proof.
  intros Hrun%read_graph_from_csv_inr Hw Hpost.
  assert (edge_weight G (Source r) (Target r) = Some w) as Hst.
  { by apply (read_rows_last_weight float pre r post empty_graph G w wf_empty_graph). }
  split; [done|].
  by rewrite <- (read_rows_weights_symmetric float _ empty_graph G wf_empty_graph Hrun).
Qed.

End read_graph_properties.

(** ** [find_minimum_dominating_set]: the order and the size of the result *)

Section dominating_set_bounds.
Context {V W : Type} `{EqDecision V} `{PyStr V}.

(** The vertices of [D] dominate at most themselves and their neighbours. *)
Lemma dominating_covers (G : Graph V W) D :
  undirected G → is_dominating_set G D →
  ∀ v, v ∈ nodes G → v ∈ flat_map (closed_neighborhood G) D.
Proof.
  intros Hsym Hdom v Hv. apply list_elem_of_In, in_flat_map.
  destruct (Hdom v Hv) as [HvD|(w & Hw & HwD)].
  - exists v. split; [by apply list_elem_of_In|]. apply list_elem_of_In. by left.
  - exists w. split; [by apply list_elem_of_In|]. apply list_elem_of_In.
    right. by apply Hsym.
Qed.

Lemma flat_map_length_bound {A B} (f : A → list B) (l : list A) (b : nat) :
  (∀ x, x ∈ l → length (f x) ≤ b) → length (flat_map f l) ≤ length l * b.
Proof.
  induction l as [|x l IH]; simpl; [done|].
  intros Hb. rewrite length_app.
  specialize (Hb x (list_elem_of_here _ _)) as Hx.
  assert (length (flat_map f l) ≤ length l * b) by (apply IH; intros; apply Hb; by right).
  lia.
Qed.

Lemma dominating_degree_bound (G : Graph V W) D (Δ : nat) :
  wf_graph G → undirected G → is_dominating_set G D →
  (∀ v, v ∈ D → length (neighbors G v) ≤ Δ) →
  length (nodes G) ≤ length D * (Δ + 1).
Proof.
  intros (Hnd & _) Hsym Hdom Hdeg.
  etrans; [|apply (flat_map_length_bound (closed_neighborhood G))].
  - apply submseteq_length, NoDup_submseteq; [done|]. by apply dominating_covers.
  - intros d Hd. unfold closed_neighborhood. simpl. specialize (Hdeg d Hd). lia.
Qed.

(** In a graph whose vertices all have a neighbour other than themselves,
    the vertices outside a dominating set of least size dominate too. *)
Lemma minimum_complement_dominating (G : Graph V W) D :
  wf_graph G → undirected G →
  (∀ v, v ∈ nodes G → ∃ w, w ∈ neighbors G v ∧ w ≠ v) →
  is_dominating_set G D → (∀ D', is_dominating_set G D' → length D ≤ length D') →
  is_dominating_set G (filter (λ v, v ∉ D) (nodes G)).
Proof.
  intros Hwf Hsym Hnbr Hdom Hmin v Hv.
  destruct (decide (v ∈ D)) as [HvD|HvD]; [|left; by apply list_elem_of_filter].
  right. destruct (decide (Exists (λ w, w ∉ D) (neighbors G v))) as [Hex|Hnex].
  - apply Exists_exists in Hex as (w & Hw & HwD). exists w. split; [done|].
    apply list_elem_of_filter. split; [done|]. by eapply wf_neighbors_nodes.
  - exfalso.
    assert (∀ w, w ∈ neighbors G v → w ∈ D) as Hall.
    { intros w Hw. destruct (decide (w ∈ D)); [done|].
      destruct Hnex. apply Exists_exists. eauto. }
    assert (is_dominating_set G (filter (λ d, d ≠ v) D)) as Hdom'.
    { intros x Hx. destruct (decide (x = v)) as [->|Hxv].
      - right. destruct (Hnbr v Hv) as (w & Hw & Hwv). exists w. split; [done|].
        apply list_elem_of_filter. auto.
      - destruct (Hdom x Hx) as [HxD|(d & Hd & HdD)].
        + left. by apply list_elem_of_filter.
        + destruct (decide (d = v)) as [->|Hdv].
          * left. apply list_elem_of_filter. split; [done|]. by apply Hall, Hsym.
          * right. exists d. split; [done|]. by apply list_elem_of_filter. }
    specialize (Hmin _ Hdom').
    pose proof (length_filter_lt (λ d, d ≠ v) D v HvD) as Hlt.
    assert (¬ v ≠ v) as Hvv by tauto. specialize (Hlt Hvv). lia.
Qed.

Lemma minimum_at_most_half (G : Graph V W) D :
  wf_graph G → undirected G →
  (∀ v, v ∈ nodes G → ∃ w, w ∈ neighbors G v ∧ w ≠ v) →
  NoDup D → (∀ v, v ∈ D → v ∈ nodes G) →
  is_dominating_set G D → (∀ D', is_dominating_set G D' → length D ≤ length D') →
  2 * length D ≤ length (nodes G).
Proof.
  intros Hwf Hsym Hnbr HndD Hsub Hdom Hmin.
  pose proof (Hmin _ (minimum_complement_dominating G D Hwf Hsym Hnbr Hdom Hmin)) as Hcompl.
  pose proof (filter_complement_length (λ v, v ∈ D) (nodes G)) as Hsplit.
  assert (length D ≤ length (filter (λ v, v ∈ D) (nodes G))) as Hin.
  { apply submseteq_length, NoDup_submseteq; [done|].
    intros x Hx. apply list_elem_of_filter. auto. }
  lia.
Qed.

End dominating_set_bounds.

Section solve_properties.
Context {V W : Type} `{EqDecision V} `{PyStr V}.
Variable solve : LpProblem V → V → Z.

(** X19: when two vertices of a well-formed graph get constraints of the
    same name (the names of the vertices differ at most in characters among
    [-+[] ] and [_], as those of a-b and a_b do), the solve operation raises
    [PulpError] when the second of the two constraints is added, whatever
    the solver, and leaves the graph as it is. *)
Theorem raises_on_colliding_names (G : Graph V W) :
  wf_graph G → ¬ distinct_constraint_names G →
  find_minimum_dominating_set solve G = (inl PulpError, G).
Proof.
  intros Hwf Hnames. rewrite find_minimum_dominating_set_outcome by done.
  by rewrite decide_False.
Qed.

(** X9: the solve operation returns the selected vertices in the order of
    [G.nodes()]: a list it returns is a sublist of the vertices of the
    graph, whatever the solver answers.  It returns a list whenever the PuLP
    names of the vertices are distinct. *)
Theorem returned_set_in_node_order (G : Graph V W) :
  wf_graph G →
  (distinct_names G → ∃ D, (find_minimum_dominating_set solve G).1 = inr D) ∧
  ∀ D, (find_minimum_dominating_set solve G).1 = inr D → D `sublist_of` nodes G.
Proof.
  intros Hwf. split.
  - intros Hnames. exists (selected solve G).
    by rewrite find_minimum_dominating_set_run.
  - intros D ->%find_minimum_dominating_set_inr; [|done]. apply sublist_filter.
Qed.

(** X10: the linear program of the solve operation states domination: a
    0/1 assignment that gives 1 to the vertices of [D] satisfies the
    constraints exactly when [D] dominates the graph, and its objective
    value is the number of vertices of the graph in [D]; when the PuLP names
    of the vertices are distinct the operation returns the vertices to which
    the solver gives 1 in this program. *)
Theorem program_states_domination (G : Graph V W) :
  wf_graph G →
  (distinct_names G →
     (find_minimum_dominating_set solve G).1 =
     inr (filter (λ v, solve (mds_problem G) v = 1%Z) (nodes G))) ∧
  ∀ D, (feasible (mds_problem G) (indicator D) ↔ is_dominating_set G D) ∧
       expr_value (indicator D) (objective (mds_problem G)) =
       Z.of_nat (length (filter (λ v, v ∈ D) (nodes G))).
Proof.
  intros Hwf. split; [intros Hnames; by rewrite find_minimum_dominating_set_run|].
  intros D. split; [split|].
  - intros Hfeas%feasible_dominating v Hv; [|done].
    destruct (Hfeas v Hv) as [Hin|(w & Hw & Hin)].
    + left. apply list_elem_of_filter in Hin as [Hin _]. by apply indicator_1.
    + right. exists w. split; [done|].
      apply list_elem_of_filter in Hin as [Hin _]. by apply indicator_1.
  - by apply dominating_feasible.
  - rewrite mds_problem_objective by (intros; apply indicator_0_1).
    f_equal. f_equal. apply list_filter_iff. intros v. apply indicator_1.
Qed.

Hypothesis solve_exact : exact_solver solve.

(** X11: when one vertex has every other vertex as a neighbour (a star, a
    complete graph) and the vertices have distinct PuLP names, the list the
    solve operation returns has exactly one vertex. *)
Theorem universal_vertex_solved (G : Graph V W) (c : V) :
  wf_graph G → distinct_names G → c ∈ nodes G →
  (∀ v, v ∈ nodes G → v = c ∨ c ∈ neighbors G v) →
  ∃ D, (find_minimum_dominating_set solve G).1 = inr D ∧ length D = 1.
Proof.
  intros Hwf Hnames Hc Hall. exists (selected solve G). split.
  - by rewrite find_minimum_dominating_set_run.
  - apply Nat.le_antisymm.
    + apply (selected_minimum solve solve_exact G [c] Hwf Hnames).
      intros v Hv. destruct (Hall v Hv) as [->|Hn]; [left; left|].
      right. exists c. split; [done | left].
    + apply selected_nonempty; [done..|].
      intros E. rewrite E in Hc. by apply elem_of_nil in Hc.
Qed.

(** X12: on a graph whose vertices have distinct PuLP names, a vertex all
    of whose neighbours are itself (a vertex with only a self-loop) is in
    the list the solve operation returns. *)
Theorem self_loop_vertex_selected (G : Graph V W) (v : V) :
  wf_graph G → distinct_names G → v ∈ nodes G →
  Forall (λ w, w = v) (neighbors G v) →
  ∃ D, (find_minimum_dominating_set solve G).1 = inr D ∧ v ∈ D.
Proof.
  intros Hwf Hnames Hv Hself. exists (selected solve G). split.
  - by rewrite find_minimum_dominating_set_run.
  - destruct (selected_dominating solve solve_exact G Hwf Hnames v Hv)
      as [?|(w & Hw & Hin)]; [done|].
    rewrite Forall_forall in Hself. by rewrite <- (Hself w Hw).
Qed.

(** X13: in an undirected graph in which no vertex has more than [Δ]
    neighbours, the vertices having distinct PuLP names, the list the solve
    operation returns has at least n / (Δ + 1) vertices: n is at most its
    size times [Δ + 1]. *)
Theorem returned_set_degree_bound (G : Graph V W) (Δ : nat) :
  wf_graph G → distinct_names G → undirected G →
  (∀ v, v ∈ nodes G → length (neighbors G v) ≤ Δ) →
  ∃ D, (find_minimum_dominating_set solve G).1 = inr D ∧
       length (nodes G) ≤ length D * (Δ + 1).
Proof.
  intros Hwf Hnames Hsym Hdeg. exists (selected solve G). split.
  - by rewrite find_minimum_dominating_set_run.
  - apply dominating_degree_bound; [done.. | by apply selected_dominating |].
    intros v Hv. by apply Hdeg, (selected_subseteq solve G).
Qed.

(** X14: in an undirected graph in which every vertex has a neighbour
    other than itself, the vertices having distinct PuLP names, the list the
    solve operation returns has at most half of the vertices. *)
Theorem returned_set_at_most_half (G : Graph V W) :
  wf_graph G → distinct_names G → undirected G →
  (∀ v, v ∈ nodes G → ∃ w, w ∈ neighbors G v ∧ w ≠ v) →
  ∃ D, (find_minimum_dominating_set solve G).1 = inr D ∧
       2 * length D ≤ length (nodes G).
Proof.
  intros Hwf Hnames Hsym Hnbr. exists (selected solve G). split.
  - by rewrite find_minimum_dominating_set_run.
  - apply minimum_at_most_half; [done..| | | |].
    + by apply selected_NoDup.
    + apply selected_subseteq.
    + by apply selected_dominating.
    + intros D' HD'. by apply selected_minimum.
Qed.

End solve_properties.

(** X15: the size of the returned set does not depend on the solver: on a
    graph whose vertices have distinct PuLP names the solve operation
    returns a list with each of two exact solvers, and the two lists, which
    may differ, have the same length. *)
Theorem size_independent_of_solver {V W : Type} `{EqDecision V} `{PyStr V}
    (solve1 solve2 : LpProblem V → V → Z) (G : Graph V W) :
  exact_solver solve1 → exact_solver solve2 → wf_graph G → distinct_names G →
  ∃ D1 D2, (find_minimum_dominating_set solve1 G).1 = inr D1 ∧
           (find_minimum_dominating_set solve2 G).1 = inr D2 ∧
           length D1 = length D2.
Proof.
  intros H1 H2 Hwf Hnames. exists (selected solve1 G), (selected solve2 G).
  rewrite !find_minimum_dominating_set_run by done.
  split_and!; [done..|]. by rewrite !selected_brute_force.
Qed.

(** ** The script: reading a file and solving *)

Section erase_facts.
Context {V : Type} `{EqDecision V}.

Lemma dict_get_fmap {A B} (g : A → B) (d : dict V A) k :
  dict_get ((λ p : V * A, (p.1, g p.2)) <$> d) k = g <$> dict_get d k.
Proof.
  induction d as [|[k' a] d IH]; csimpl; [done|]. by case_decide.
Qed.

Lemma dict_set_fmap {A B} (g : A → B) (d : dict V A) k a :
  (λ p : V * A, (p.1, g p.2)) <$> dict_set d k a =
  dict_set ((λ p : V * A, (p.1, g p.2)) <$> d) k (g a).
Proof.
  induction d as [|[k' a'] d IH]; csimpl; [done|].
  case_decide; csimpl; [done|]. by rewrite IH.
Qed.

Lemma erase_adj_set {W} (d : dict V W) k w : erase_adj (dict_set d k w) = dict_set (erase_adj d) k ().
Proof. unfold erase_adj. apply (dict_set_fmap (λ _ : W, ())). Qed.

Lemma erase_with_node {W} n (G : Graph V W) :
  erase_weights (with_node n G) = with_node n (erase_weights G).
Proof.
  unfold with_node. simpl. destruct (dict_mem (G_node G) n); [done|].
  unfold erase_weights. simpl. f_equal.
  exact (dict_set_fmap (@erase_adj V W) (G_adj G) n []).
Qed.

Lemma erase_with_adj {W} u v w (G : Graph V W) :
  erase_weights (with_adj u v w G) = with_adj u v () (erase_weights G).
Proof.
  unfold with_adj, erase_weights. simpl. rewrite (dict_get_fmap (@erase_adj V W)).
  destruct (dict_get (G_adj G) u) as [adj_u|]; simpl; [|done].
  f_equal. rewrite (dict_set_fmap (@erase_adj V W)). by rewrite erase_adj_set.
Qed.

(** [add_edge] does the same to the shape of the graph whatever the
    weight. *)
Lemma erase_with_edge {W} u v w (G : Graph V W) :
  erase_weights (with_edge u v w G) = with_edge u v () (erase_weights G).
Proof. unfold with_edge. by rewrite !erase_with_adj, !erase_with_node. Qed.

End erase_facts.

(** The two ends of a row. *)
Definition row_ends (r : Row) : string * string := (Source r, Target r).

Lemma read_rows_shape {W1 W2} (float1 : string → option W1) (float2 : string → option W2)
    (rows1 rows2 : list Row) (G1 G1' : Graph string W1) (G2 G2' : Graph string W2) :
  wf_graph G1 → wf_graph G2 → erase_weights G1 = erase_weights G2 →
  row_ends <$> rows1 = row_ends <$> rows2 →
  for_each rows1 (read_row float1) G1 = (inr (), G1') →
  for_each rows2 (read_row float2) G2 = (inr (), G2') →
  erase_weights G1' = erase_weights G2'.
Proof.
  revert rows2 G1 G2. induction rows1 as [|r1 rows1 IH];
    intros [|r2 rows2] G1 G2 Hwf1 Hwf2 HG Hends Hrun1 Hrun2; try discriminate.
  - rewrite (read_rows_nil float1) in Hrun1. rewrite (read_rows_nil float2) in Hrun2.
    injection Hrun1 as <-. injection Hrun2 as <-. done.
  - injection Hends as Hs Ht Hends.
    destruct (float1 (Weight r1)) as [w1|] eqn:Hw1;
      [|by rewrite read_rows_cons_error in Hrun1].
    destruct (float2 (Weight r2)) as [w2|] eqn:Hw2;
      [|by rewrite read_rows_cons_error in Hrun2].
    rewrite (read_rows_cons float1 r1 rows1 G1 w1) in Hrun1 by done.
    rewrite (read_rows_cons float2 r2 rows2 G2 w2) in Hrun2 by done.
    eapply (IH rows2); [| |
      |exact Hends|exact Hrun1|exact Hrun2]; [by apply wf_with_edge..|].
    rewrite !erase_with_edge. by rewrite HG, Hs, Ht.
Qed.

Section main.
Context {W : Type}.
Variable float : string → option W.
Variable solve : LpProblem string → string → Z.

(** The list the script prints, or the exception that ends it before, on
    the rows of a file all of whose rows have the three columns: the graph
    is read from the file and handed to the solve operation.  The drawing
    that follows the printing is not modelled. *)
Definition main_dominating_set (rows : list Row) : exn + list string :=
  match read_graph_from_csv float rows with
  | inr G => (find_minimum_dominating_set solve G).1
  | inl e => inl e
  end.

(** The vertices of the graph of a file, in the order of [G.nodes()]. *)
Definition file_vertices (rows : list Row) : list string :=
  foldl add_new [] (endpoints rows).

Lemma read_graph_from_csv_total rows :
  Forall (λ r, is_Some (float (Weight r))) rows →
  ∃ G, read_graph_from_csv float rows = inr G ∧ wf_graph G ∧ undirected G.
Proof.
  intros Hparse. unfold read_graph_from_csv.
  pose proof (read_rows_run float rows empty_graph wf_empty_graph undirected_empty_graph) as Hrun.
  destruct (for_each rows (read_row float) empty_graph) as [[e|[]] G].
  - destruct Hrun as [_ Hbad]. apply Exists_exists in Hbad as (r & Hr & Hnone).
    rewrite Forall_forall in Hparse. specialize (Hparse r Hr).
    rewrite Hnone in Hparse. by destruct Hparse.
  - destruct Hrun as (_ & Hwf & Hsym & _). eauto.
Qed.

(** Reading the rows of a file fails only on a weight that is not a
    number, with [ValueError]; the vertices of the graph read are those of
    the file. *)
Lemma read_graph_from_csv_outcome (rows : list Row) :
  (∀ e, read_graph_from_csv float rows = inl e ↔
        e = ValueError ∧ Exists (λ r, float (Weight r) = None) rows) ∧
  (∀ G, read_graph_from_csv float rows = inr G →
        Forall (λ r, is_Some (float (Weight r))) rows ∧ wf_graph G ∧
        nodes G = file_vertices rows).
Proof.
  unfold read_graph_from_csv, file_vertices.
  pose proof (read_rows_run float rows empty_graph wf_empty_graph undirected_empty_graph) as Hrun.
  pose proof (read_rows_order float rows empty_graph) as Horder.
  destruct (for_each rows (read_row float) empty_graph) as [[e'|[]] G].
  - destruct Hrun as [-> Hbad]. split; [|done]. intros e. split.
    + by intros [= <-].
    + by intros [-> _].
  - destruct Hrun as (Hparse & Hwf & _). split.
    + intros e. split; [done|]. intros [_ (r & Hr & Hnone)%Exists_exists].
      rewrite Forall_forall in Hparse. specialize (Hparse r Hr).
      rewrite Hnone in Hparse. by destruct Hparse.
    + intros G' [= <-]. split_and!; [done..|].
      by rewrite (Horder G wf_empty_graph eq_refl).
Qed.


Hypothesis solve_exact : exact_solver solve.

(** X17: on a file whose weights are all numbers and whose vertices have
    distinct PuLP names, the script prints a list that is a dominating set
    of least size of the graph of the file; every vertex in it is the source
    or the target of a row, it has at least one vertex unless the file has
    no rows, and at most half of the vertices when the file has no row from
    a vertex to itself. *)
Theorem main_prints_minimum_dominating_set (rows : list Row) :
  Forall (λ r, is_Some (float (Weight r))) rows →
  NoDup (pulp_vertex_name <$> file_vertices rows) →
  ∃ G D, read_graph_from_csv float rows = inr G ∧
         main_dominating_set rows = inr D ∧
         is_dominating_set G D ∧
         (∀ D', is_dominating_set G D' → length D ≤ length D') ∧
         (∀ v, v ∈ D → ∃ r, r ∈ rows ∧ (v = Source r ∨ v = Target r)) ∧
         (rows ≠ [] → 1 ≤ length D) ∧
         (Forall (λ r, Source r ≠ Target r) rows → 2 * length D ≤ length (nodes G)).
Proof.
  intros Hparse Hdistinct.
  destruct (read_graph_from_csv_total rows Hparse) as (G & Hread & Hwf & Hsym).
  assert (distinct_names G) as Hnames.
  { unfold distinct_names.
    by rewrite (proj2 (proj2 (proj2 (read_graph_from_csv_outcome rows) G Hread))). }
  exists G, (selected solve G). unfold main_dominating_set. rewrite Hread.
  pose proof (read_graph_from_csv_inr float rows G Hread) as Hrun.
  split_and!; [done | by rewrite find_minimum_dominating_set_run | | | | |].
  - by apply selected_dominating.
  - intros D' HD'. by apply selected_minimum.
  - intros v Hv%selected_subseteq.
    apply (read_rows_nodes float rows _ G wf_empty_graph Hrun) in Hv as [Hv|Hv];
      [by apply elem_of_nil in Hv|].
    apply list_elem_of_In, in_flat_map in Hv as (r & Hr%list_elem_of_In & Hv%list_elem_of_In).
    exists r. split; [done|]. rewrite !elem_of_cons, elem_of_nil in Hv. tauto.
  - intros Hrows. apply selected_nonempty; [done..|].
    destruct rows as [|r rows']; [done|]. intros Hnil.
    assert (Source r ∈ nodes G) as Hin.
    { apply (read_rows_nodes float (r :: rows') _ G wf_empty_graph Hrun).
      right. unfold endpoints. simpl. left. }
    rewrite Hnil in Hin. by apply elem_of_nil in Hin.
  - intros Hloops. apply minimum_at_most_half; [done..| | | | |].
    + intros v Hv.
      apply (read_rows_nodes float rows _ G wf_empty_graph Hrun) in Hv as [Hv|Hv];
        [by apply elem_of_nil in Hv|].
      apply list_elem_of_In, in_flat_map in Hv as (r & Hr%list_elem_of_In & Hv%list_elem_of_In).
      rewrite Forall_forall in Hloops. specialize (Hloops r Hr).
      rewrite !elem_of_cons, elem_of_nil in Hv. destruct Hv as [->|[->|[]]].
      * exists (Target r). split; [|done].
        apply (read_rows_neighbors float rows _ G wf_empty_graph Hrun).
        right. exists r. split; [done | by left].
      * exists (Source r). split; [|done].
        apply (read_rows_neighbors float rows _ G wf_empty_graph Hrun).
        right. exists r. split; [done | by right].
    + by apply selected_NoDup.
    + apply selected_subseteq.
    + by apply selected_dominating.
    + intros D' HD'. by apply selected_minimum.
Qed.

End main.

(** X18: the weights of a file do not change what the script prints: two
    files with the same sources and targets, row by row, whose weights are
    all numbers, give the same list. *)
Theorem main_ignores_weights {W1 W2 : Type}
    (float1 : string → option W1) (float2 : string → option W2)
    (solve : LpProblem string → string → Z) (rows1 rows2 : list Row) :
  row_ends <$> rows1 = row_ends <$> rows2 →
  Forall (λ r, is_Some (float1 (Weight r))) rows1 →
  Forall (λ r, is_Some (float2 (Weight r))) rows2 →
  main_dominating_set float1 solve rows1 = main_dominating_set float2 solve rows2.
Proof.
  intros Hends Hparse1 Hparse2.
  destruct (read_graph_from_csv_total float1 rows1 Hparse1) as (G1 & Hread1 & Hwf1 & _).
  destruct (read_graph_from_csv_total float2 rows2 Hparse2) as (G2 & Hread2 & Hwf2 & _).
  unfold main_dominating_set. rewrite Hread1, Hread2.
  apply reads_find_minimum_dominating_set.
  apply (read_rows_shape float1 float2 rows1 rows2 empty_graph G1 empty_graph G2);
    [apply wf_empty_graph.. | done | done | |]; by apply read_graph_from_csv_inr.
Qed.

(** ** The file as [csv.DictReader] reads it *)

(** A value of the dictionary that [csv.DictReader] makes of a record: a
    field of the record, [None] for a column the record is too short for, or
    the list of the fields for which the header has no column. *)
Inductive csv_value : Type :=
| Field (s : string)
| NoField
| RestFields (fields : list string).

(** The dictionary of a record: its keys are the column names, and [None]
    for the fields beyond the header. *)
Abbreviation csv_row := (dict (option string) csv_value).

(** The dictionary [DictReader.__next__] makes of a record that is not
    blank: [dict(zip(fieldnames, row))], then the fields beyond the header
    under the key [None], or [None] under the columns beyond the record. *)
Definition DictReader_row (fieldnames row : list string) : csv_row :=
  let d := foldl (λ d kv, dict_set d (Some kv.1) (Field kv.2)) [] (zip fieldnames row) in
  let lf := length fieldnames in
  let lr := length row in
  if decide (lf < lr) then dict_set d None (RestFields (drop lf row))
  else if decide (lr < lf)
       then foldl (λ d key, dict_set d (Some key) NoField) d (drop lr fieldnames)
       else d.

(** [csv.DictReader(csvfile)] on the records of the file, as [csv.reader]
    splits them: the first record is the header and blank records are
    passed over. *)
Definition DictReader (records : list (list string)) : list csv_row :=
  match records with
  | [] => []
  | fieldnames :: records => DictReader_row fieldnames <$> filter (λ row, row ≠ []) records
  end.

Section read_graph_records.
Context {W : Type}.
Variable float : string → option W.

(** [row[key]] *)
Definition row_getitem (row : csv_row) (key : string) : M string W csv_value :=
  or_raise KeyError (dict_get row (Some key)).

(** [float(x)]: [TypeError] for a value that is not a string. *)
Definition float_value (x : csv_value) : exn + W :=
  match x with
  | Field s => match float s with Some w => inr w | None => inl ValueError end
  | NoField | RestFields _ => inl TypeError
  end.

(** What [Graph.add_edge] does with an end that is not yet a node of the
    graph: [None] raises [ValueError] ("None cannot be a node"), and a list
    cannot be hashed. *)
Definition node_value (x : csv_value) : exn + string :=
  match x with
  | Field s => inr s
  | NoField => inl ValueError
  | RestFields _ => inl TypeError
  end.

(** [G.add_edge(u, v, weight=weight)] on the values of a row. *)
Definition add_edge_values (u v : csv_value) (weight : W) : M string W unit :=
  u <- of_result (node_value u);;
  add_node_if_missing u;;
  v <- of_result (node_value v);;
  add_node_if_missing v;;
  adj <- get_adj;;
  _ <- or_raise KeyError (dict_get adj u);;
  let datadict := weight in
  adj_setitem u v datadict;;
  adj_setitem v u datadict.

(** The body of the loop over the rows:
    [G.add_edge(row['Source'], row['Target'], weight=float(row['Weight']))]. *)
Definition read_csv_row (row : csv_row) : M string W unit :=
  source <- row_getitem row "Source";;
  target <- row_getitem row "Target";;
  weight <- row_getitem row "Weight";;
  weight <- of_result (float_value weight);;
  add_edge_values source target weight.

(** [read_graph_from_csv], on the records of the file. *)
Definition read_graph_from_csv_records (records : list (list string)) : exn + Graph string W :=
  match for_each (DictReader records) read_csv_row empty_graph with
  | (inr _, G) => inr G
  | (inl e, _) => inl e
  end.

End read_graph_records.

(** The row of a record in which the columns [Source], [Target] and
    [Weight] are the fields number [i_s], [i_t] and [i_w]. *)
Definition record_row (i_s i_t i_w : nat) (row : list string) : Row :=
  mkRow (default EmptyString (row !! i_s)) (default EmptyString (row !! i_t))
        (default EmptyString (row !! i_w)).

(** The rows of the records that are not blank. *)
Definition file_rows (i_s i_t i_w : nat) (records : list (list string)) : list Row :=
  record_row i_s i_t i_w <$> filter (λ row, row ≠ []) records.


Section DictReader_facts.

Lemma zip_fields_other (fieldnames row : list string) (d : csv_row) k :
  k ∉ Some <$> fieldnames →
  dict_get (foldl (λ d kv, dict_set d (Some kv.1) (Field kv.2)) d (zip fieldnames row)) k
  = dict_get d k.
Proof.
  revert row d. induction fieldnames as [|a fn IH]; intros row d Hk; [done|].
  destruct row as [|r row]; [done|]. csimpl in *.
  apply not_elem_of_cons in Hk as [Hne Hk].
  rewrite IH by done. by rewrite dict_get_set_ne.
Qed.


Lemma missing_fields_lookup (keys : list string) (d : csv_row) k :
  dict_get (foldl (λ d key, dict_set d (Some key) NoField) d keys) k
  = if decide (k ∈ Some <$> keys) then Some NoField else dict_get d k.
Proof.
  revert d. induction keys as [|a keys IH]; intros d; csimpl.
  - done.
  - rewrite IH. destruct (decide (k ∈ Some <$> keys)) as [Hin|Hin].
    + rewrite decide_True; [done | by right].
    + rewrite dict_get_set. destruct (decide (Some a = k)) as [<-|Hne].
      * rewrite decide_True; [done | left].
      * rewrite decide_False; [done|]. by intros [->|?]%elem_of_cons.
Qed.


(** A row has no value under a name that is not in the header. *)
Lemma DictReader_row_missing (fieldnames row : list string) k :
  k ∉ fieldnames → dict_get (DictReader_row fieldnames row) (Some k) = None.
Proof.
  intros Hk. unfold DictReader_row.
  assert (Some k ∉ Some <$> fieldnames) as Hk'.
  { intros (x & [= <-] & Hx)%list_elem_of_fmap. done. }
  repeat case_decide.
  - rewrite dict_get_set_ne by done. by rewrite zip_fields_other.
  - rewrite missing_fields_lookup. rewrite decide_False.
    + by rewrite zip_fields_other.
    + intros (x & [= <-] & Hx)%list_elem_of_fmap.
      apply Hk. by eapply subseteq_drop.
  - by rewrite zip_fields_other.
Qed.

End DictReader_facts.

Section read_graph_records_facts.
Context {W : Type}.
Variable float : string → option W.
Variable solve : LpProblem string → string → Z.

(** The list the script prints, or the exception that ends it before, on
    the records of the file. *)
Definition main_dominating_set_records (records : list (list string)) : exn + list string :=
  match read_graph_from_csv_records float records with
  | inr G => (find_minimum_dominating_set solve G).1
  | inl e => inl e
  end.





(** On a header without one of the three columns the loop ends with
    [KeyError] at the first record. *)
Lemma read_csv_row_missing key fieldnames row G :
  key ∈ ["Source"; "Target"; "Weight"]%string → key ∉ fieldnames →
  read_csv_row float (DictReader_row fieldnames row) G = (inl KeyError, G).
Proof.
  intros Hkey Hmissing. unfold read_csv_row, row_getitem, bind.
  destruct (dict_get (DictReader_row fieldnames row) (Some "Source"%string)) eqn:Hs;
    [|done].
  destruct (dict_get (DictReader_row fieldnames row) (Some "Target"%string)) eqn:Ht;
    [|done].
  destruct (dict_get (DictReader_row fieldnames row) (Some "Weight"%string)) eqn:Hw;
    [|done].
  exfalso. pose proof (DictReader_row_missing fieldnames row key Hmissing) as Hnone.
  repeat (apply elem_of_cons in Hkey as [->|Hkey]; [congruence|]).
  by apply elem_of_nil in Hkey.
Qed.






(** X21: when the header lacks one of the columns [Source], [Target] and
    [Weight] and the file has a record that is not blank,
    [read_graph_from_csv] raises [KeyError] at the first such record, and
    the script ends with it. *)
Theorem missing_column_raises_KeyError key fieldnames records :
  key ∈ ["Source"; "Target"; "Weight"]%string → key ∉ fieldnames →
  Exists (λ row, row ≠ []) records →
  read_graph_from_csv_records float (fieldnames :: records) = inl KeyError ∧
  main_dominating_set_records (fieldnames :: records) = inl KeyError.
Proof.
  intros Hkey Hmissing Hrec.
  assert (read_graph_from_csv_records float (fieldnames :: records) = inl KeyError) as Hread.
  { unfold read_graph_from_csv_records. simpl.
    destruct (filter (λ row, row ≠ []) records) as [|row rows] eqn:Hrows.
    - apply Exists_exists in Hrec as (row & Hin & Hrow).
      assert (row ∈ filter (λ row, row ≠ []) records) as Hfil
        by by apply list_elem_of_filter.
      rewrite Hrows in Hfil. by apply elem_of_nil in Hfil.
    - csimpl. unfold bind at 1.
      by rewrite (read_csv_row_missing key). }
  split; [done|]. unfold main_dominating_set_records. by rewrite Hread.
Qed.


End read_graph_records_facts.

(** ** A second exact solver

    Enumeration again, keeping the last of the best assignments where
    [brute_force_solve] keeps the first: two exact solvers that answer
    differently. *)

Section brute_force_last.
Context {V : Type} `{EqDecision V}.

(** The last element of [best :: l] on which [f] is least. *)
Fixpoint argmin_last {A} (f : A → Z) (best : A) (l : list A) : A :=
  match l with
  | [] => best
  | x :: l' => argmin_last f (if (f x <=? f best)%Z then x else best) l'
  end.

Definition brute_force_solve_last (P : LpProblem V) : V → Z :=
  let indices := remove_dups (var_index <$> lp_variables P) in
  match filter (λ D, feasibleb P (indicator D) = true) (subsets indices) with
  | [] => indicator []
  | D :: candidates =>
      indicator (argmin_last (λ D, expr_value (indicator D) (objective P)) D candidates)
  end.

Lemma argmin_last_elem {A} (f : A → Z) best l : argmin_last f best l ∈ best :: l.
Proof.
  revert best. induction l as [|x l IH]; intros best; simpl; [by left|].
  specialize (IH (if (f x <=? f best)%Z then x else best)).
  apply elem_of_cons in IH as [->|?]; [|by do 2 right].
  destruct (f x <=? f best)%Z; [right; left | left].
Qed.

Lemma argmin_last_least {A} (f : A → Z) best l x :
  x ∈ best :: l → (f (argmin_last f best l) ≤ f x)%Z.
Proof.
  revert best x. induction l as [|y l IH]; intros best x Hx; simpl.
  - apply list_elem_of_singleton in Hx as ->. lia.
  - destruct (Z.leb_spec (f y) (f best)) as [Hle|Hgt].
    + apply elem_of_cons in Hx as [->|Hx]; [|by apply IH].
      etrans; [apply (IH y y); left|]. lia.
    + apply elem_of_cons in Hx as [->|[->|Hx]%elem_of_cons].
      * apply IH. left.
      * etrans; [apply (IH best best); left|]. lia.
      * apply IH. by right.
Qed.

Theorem brute_force_solve_last_exact : exact_solver brute_force_solve_last.
Proof.
  intros P _ Hbin _ [b0 Hb0]. unfold brute_force_solve_last.
  set (indices := remove_dups (var_index <$> lp_variables P)).
  set (obj := λ S, expr_value (indicator S) (objective P)).
  assert (∀ b, feasible P b →
    ∃ S, S ∈ filter (λ S, feasibleb P (indicator S) = true) (subsets indices) ∧
         obj S = expr_value b (objective P)) as Hrepr.
  { intros b Hb. exists (filter (λ v, b v = 1%Z) indices). split.
    - apply list_elem_of_filter. split; [|apply filter_in_subsets].
      apply feasibleb_spec. eapply feasible_ext; [|exact Hb].
      by apply feasible_indicator.
    - symmetry. apply objective_ext. by apply feasible_indicator. }
  destruct (filter _ (subsets indices)) as [|S0 cands] eqn:Hcands.
  { destruct (Hrepr b0 Hb0) as (S & HS & _). by apply elem_of_nil in HS. }
  split.
  - pose proof (argmin_last_elem obj S0 cands) as Hin.
    rewrite <- Hcands in Hin. apply list_elem_of_filter in Hin as [Hin _].
    by apply feasibleb_spec.
  - intros b Hb. destruct (Hrepr b Hb) as (S & HS & <-).
    by apply (argmin_last_least obj).
Qed.

End brute_force_last.

(** ** Instances of the further properties *)

Section more_examples.
Local Open Scope string_scope.

(** A stand-in for [float] that reads the weights of the files below. *)
Definition float_small (s : string) : option Z :=
  if decide (s = "1") then Some 1%Z
  else if decide (s = "2") then Some 2%Z
  else if decide (s = "3") then Some 3%Z
  else None.

(** A file that names the edge of A and B twice, with two weights. *)
Definition row_A_B : Row := mkRow "A" "B" "1".
Definition row_B_A : Row := mkRow "B" "A" "3".
Definition row_B_C : Row := mkRow "B" "C" "2".
Definition reweighted_rows : list Row := [row_A_B; row_B_A; row_B_C].

(** Its graph: the path A-B-C, the second weight on the edge of A and B. *)
Definition reweighted_graph : Graph string Z :=
  mkGraph
    [("A", ()); ("B", ()); ("C", ())]
    [("A", [("B", 3%Z)]); ("B", [("A", 3%Z); ("C", 2%Z)]); ("C", [("B", 2%Z)])].

(** The same sources and targets with other weights, for [float_of_1_0]. *)
Definition unit_weight_rows : list Row :=
  [mkRow "A" "B" "1.0"; mkRow "B" "A" "1.0"; mkRow "B" "C" "1.0"].

(** A vertex A with a self-loop only, and an edge B-C. *)
Definition loop_and_edge : Graph string Z :=
  mkGraph
    [("A", ()); ("B", ()); ("C", ())]
    [("A", [("A", 1%Z)]); ("B", [("C", 1%Z)]); ("C", [("B", 1%Z)])].

Definition vertex_A : string := "A".
Definition vertex_B : string := "B".
Definition vertex_E : string := "E".

Example reweighted_rows_read :
  read_graph_from_csv float_small reweighted_rows = inr reweighted_graph.
Proof. vm_compute. reflexivity. Qed.

Example path_ABCDE_brute_force_last :
  find_minimum_dominating_set brute_force_solve_last path_ABCDE = (inr ["A"; "D"], path_ABCDE).
Proof. vm_compute. reflexivity. Qed.

(** The file of [reweighted_rows] with the columns in another order, a
    column the script does not read, a blank line and a record with a field
    beyond the header. *)
Definition reweighted_header : list string := ["Target"; "Label"; "Source"; "Weight"].
Definition reweighted_records : list (list string) :=
  [["B"; "first"; "A"; "1"]; []; ["A"; "again"; "B"; "3"; "extra"]; ["C"; "last"; "B"; "2"]].

(** The columns the script reads, and a header without the column
    [Weight]. *)
Definition three_columns : list string := ["Source"; "Target"; "Weight"].
Definition column_Weight : string := "Weight".
Definition header_without_weight : list string := ["Source"; "Target"].

(** The usual header, and a record that stops before the weight. *)
Definition usual_header : list string := ["Source"; "Target"; "Weight"].
Definition record_A_B_1 : list string := ["A"; "B"; "1"].


Example reweighted_file_read :
  read_graph_from_csv_records float_small (reweighted_header :: reweighted_records)
  = inr reweighted_graph.
Proof. vm_compute. reflexivity. Qed.

Example header_only_read :
  read_graph_from_csv_records float_small [usual_header; []] = inr empty_graph.
Proof. reflexivity. Qed.

Example reweighted_records_rows : file_rows 2 0 3 reweighted_records = reweighted_rows.
Proof. reflexivity. Qed.

End more_examples.

Section more_instances.

Lemma add_edge_keeps_invariant_path :
  wf_graph path_ABCDE ∧
  (add_edge vertex_E vertex_A 9%Z path_ABCDE).1 = inr () ∧
  wf_graph (add_edge vertex_E vertex_A 9%Z path_ABCDE).2 ∧
  (undirected path_ABCDE → undirected (add_edge vertex_E vertex_A 9%Z path_ABCDE).2).
Proof.
  split; [apply wf_path_ABCDE|].
  apply (add_edge_keeps_invariant vertex_E vertex_A 9%Z path_ABCDE wf_path_ABCDE).
Defined.

Lemma add_edge_weights_path :
  wf_graph path_ABCDE ∧
  edge_weight (add_edge vertex_E vertex_A 9%Z path_ABCDE).2 vertex_E vertex_A = Some 9%Z ∧
  edge_weight (add_edge vertex_E vertex_A 9%Z path_ABCDE).2 vertex_A vertex_E = Some 9%Z ∧
  ∀ x y, ¬ joins vertex_E vertex_A x y →
    edge_weight (add_edge vertex_E vertex_A 9%Z path_ABCDE).2 x y = edge_weight path_ABCDE x y.
Proof.
  split; [apply wf_path_ABCDE|].
  apply (add_edge_weights vertex_E vertex_A 9%Z path_ABCDE wf_path_ABCDE).
Defined.

Lemma add_edge_vertices_and_neighbors_path :
  wf_graph path_ABCDE ∧
  nodes (add_edge vertex_E vertex_A 9%Z path_ABCDE).2 =
    add_new (add_new (nodes path_ABCDE) vertex_E) vertex_A ∧
  nodes path_ABCDE `prefix_of` nodes (add_edge vertex_E vertex_A 9%Z path_ABCDE).2 ∧
  ∀ x m, m ∈ neighbors (add_edge vertex_E vertex_A 9%Z path_ABCDE).2 x ↔
         joins vertex_E vertex_A x m ∨ m ∈ neighbors path_ABCDE x.
Proof.
  split; [apply wf_path_ABCDE|].
  apply (add_edge_vertices_and_neighbors vertex_E vertex_A 9%Z path_ABCDE wf_path_ABCDE).
Defined.

Lemma read_graph_vertices_reweighted :
  read_graph_from_csv float_small reweighted_rows = inr reweighted_graph ∧
  nodes reweighted_graph = foldl add_new [] (endpoints reweighted_rows) ∧
  NoDup (nodes reweighted_graph) ∧
  ∀ x, x ∈ nodes reweighted_graph ↔
       ∃ r, r ∈ reweighted_rows ∧ (x = Source r ∨ x = Target r).
Proof.
  split; [reflexivity|].
  apply (read_graph_vertices float_small reweighted_rows reweighted_graph). reflexivity.
Defined.

Lemma read_graph_edges_reweighted :
  read_graph_from_csv float_small reweighted_rows = inr reweighted_graph ∧
  ∀ x y, y ∈ neighbors reweighted_graph x ↔
    ∃ r, r ∈ reweighted_rows ∧
         ((Source r = x ∧ Target r = y) ∨ (Source r = y ∧ Target r = x)).
Proof.
  split; [reflexivity|].
  apply (read_graph_edges float_small reweighted_rows reweighted_graph). reflexivity.
Defined.

Lemma read_graph_no_isolated_vertex_reweighted :
  (read_graph_from_csv float_small reweighted_rows = inr reweighted_graph ∧
   vertex_A ∈ nodes reweighted_graph) ∧
  neighbors reweighted_graph vertex_A ≠ [].
Proof.
  split; [split; [reflexivity | compute_done]|].
  apply (read_graph_no_isolated_vertex float_small reweighted_rows reweighted_graph vertex_A);
    [reflexivity | compute_done].
Defined.

Lemma read_graph_weights_symmetric_reweighted :
  read_graph_from_csv float_small reweighted_rows = inr reweighted_graph ∧
  ∀ x y, edge_weight reweighted_graph x y = edge_weight reweighted_graph y x.
Proof.
  split; [reflexivity|].
  apply (read_graph_weights_symmetric float_small reweighted_rows reweighted_graph).
  reflexivity.
Defined.

Lemma row_B_C_other_edge : Forall (λ r', ¬ row_joins r' (Source row_B_A) (Target row_B_A)) [row_B_C].
Proof.
  repeat constructor. unfold row_joins, joins. simpl. intros [[? ?]|[? ?]]; discriminate.
Qed.

Lemma read_graph_last_weight_reweighted :
  (read_graph_from_csv float_small ([row_A_B] ++ row_B_A :: [row_B_C]) = inr reweighted_graph ∧
   float_small (Weight row_B_A) = Some 3%Z ∧
   Forall (λ r', ¬ row_joins r' (Source row_B_A) (Target row_B_A)) [row_B_C]) ∧
  edge_weight reweighted_graph (Source row_B_A) (Target row_B_A) = Some 3%Z ∧
  edge_weight reweighted_graph (Target row_B_A) (Source row_B_A) = Some 3%Z.
Proof.
  split; [split_and!; [reflexivity | reflexivity | apply row_B_C_other_edge]|].
  apply (read_graph_last_weight float_small [row_A_B] [row_B_C] row_B_A reweighted_graph 3%Z);
    [reflexivity | reflexivity | apply row_B_C_other_edge].
Defined.

Lemma wf_colliding_graph : wf_graph colliding_graph.
Proof. compute_done. Qed.

Lemma colliding_graph_names : ¬ distinct_constraint_names colliding_graph.
Proof. compute_done. Qed.

Lemma raises_on_colliding_names_a_b :
  (wf_graph colliding_graph ∧ ¬ distinct_constraint_names colliding_graph) ∧
  find_minimum_dominating_set brute_force_solve colliding_graph =
    (inl PulpError, colliding_graph).
Proof.
  split; [split; [apply wf_colliding_graph | apply colliding_graph_names]|].
  exact (raises_on_colliding_names brute_force_solve colliding_graph wf_colliding_graph
           colliding_graph_names).
Defined.

Lemma returned_set_in_node_order_two_hub_graph :
  (wf_graph two_hub_graph ∧ distinct_names two_hub_graph) ∧
  ∃ D, (find_minimum_dominating_set brute_force_solve two_hub_graph).1 = inr D ∧
       D `sublist_of` nodes two_hub_graph.
Proof.
  split; [split; [apply wf_two_hub_graph | apply distinct_names_two_hub_graph]|].
  destruct (returned_set_in_node_order brute_force_solve two_hub_graph wf_two_hub_graph)
    as [Hreturns Hset].
  destruct (Hreturns distinct_names_two_hub_graph) as [D HD].
  exists D. split; [exact HD | exact (Hset D HD)].
Defined.

Lemma program_states_domination_path :
  (wf_graph path_ABCDE ∧ distinct_names path_ABCDE) ∧
  (find_minimum_dominating_set brute_force_solve path_ABCDE).1 =
    inr (filter (λ v, brute_force_solve (mds_problem path_ABCDE) v = 1%Z)
           (nodes path_ABCDE)) ∧
  ∀ D, (feasible (mds_problem path_ABCDE) (indicator D) ↔ is_dominating_set path_ABCDE D) ∧
       expr_value (indicator D) (objective (mds_problem path_ABCDE)) =
       Z.of_nat (length (filter (λ v, v ∈ D) (nodes path_ABCDE))).
Proof.
  split; [split; [apply wf_path_ABCDE | apply distinct_names_path_ABCDE]|].
  destruct (program_states_domination brute_force_solve path_ABCDE wf_path_ABCDE)
    as [Hreturns Hprogram].
  split; [exact (Hreturns distinct_names_path_ABCDE) | exact Hprogram].
Defined.

Lemma wf_reweighted_graph : wf_graph reweighted_graph.
Proof. compute_done. Qed.

Lemma distinct_names_reweighted_graph : distinct_names reweighted_graph.
Proof. compute_done. Qed.

Lemma vertex_B_in_reweighted_graph : vertex_B ∈ nodes reweighted_graph.
Proof. compute_done. Qed.

Lemma vertex_B_universal :
  ∀ v, v ∈ nodes reweighted_graph → v = vertex_B ∨ vertex_B ∈ neighbors reweighted_graph v.
Proof.
  assert (Forall (λ v, v = vertex_B ∨ vertex_B ∈ neighbors reweighted_graph v)
            (nodes reweighted_graph)) as Hall by compute_done.
  by rewrite Forall_forall in Hall.
Qed.

Lemma universal_vertex_solved_reweighted :
  (wf_graph reweighted_graph ∧ distinct_names reweighted_graph ∧
   vertex_B ∈ nodes reweighted_graph) ∧
  ∃ D, (find_minimum_dominating_set brute_force_solve reweighted_graph).1 = inr D ∧
       length D = 1.
Proof.
  split; [split_and!; [apply wf_reweighted_graph | apply distinct_names_reweighted_graph
                      | apply vertex_B_in_reweighted_graph]|].
  exact (universal_vertex_solved brute_force_solve brute_force_solve_exact
           reweighted_graph vertex_B wf_reweighted_graph distinct_names_reweighted_graph
           vertex_B_in_reweighted_graph vertex_B_universal).
Defined.

Lemma wf_loop_and_edge : wf_graph loop_and_edge.
Proof. compute_done. Qed.

Lemma distinct_names_loop_and_edge : distinct_names loop_and_edge.
Proof. compute_done. Qed.

Lemma vertex_A_in_loop_and_edge : vertex_A ∈ nodes loop_and_edge.
Proof. compute_done. Qed.

Lemma vertex_A_self_loop_only : Forall (λ w, w = vertex_A) (neighbors loop_and_edge vertex_A).
Proof. compute_done. Qed.

Lemma self_loop_vertex_selected_A :
  (wf_graph loop_and_edge ∧ distinct_names loop_and_edge ∧ vertex_A ∈ nodes loop_and_edge ∧
   Forall (λ w, w = vertex_A) (neighbors loop_and_edge vertex_A)) ∧
  ∃ D, (find_minimum_dominating_set brute_force_solve loop_and_edge).1 = inr D ∧ vertex_A ∈ D.
Proof.
  split; [split_and!; [apply wf_loop_and_edge | apply distinct_names_loop_and_edge
                      | apply vertex_A_in_loop_and_edge | apply vertex_A_self_loop_only]|].
  exact (self_loop_vertex_selected brute_force_solve brute_force_solve_exact
           loop_and_edge vertex_A wf_loop_and_edge distinct_names_loop_and_edge
           vertex_A_in_loop_and_edge vertex_A_self_loop_only).
Defined.

Lemma undirected_path_ABCDE : undirected path_ABCDE.
Proof. apply undirected_by_nodes; compute_done. Qed.

Lemma path_ABCDE_degrees : ∀ v, v ∈ nodes path_ABCDE → length (neighbors path_ABCDE v) ≤ 2.
Proof.
  assert (Forall (λ v, length (neighbors path_ABCDE v) ≤ 2) (nodes path_ABCDE)) as Hall
    by compute_done.
  by rewrite Forall_forall in Hall.
Qed.

Lemma returned_set_degree_bound_path :
  (wf_graph path_ABCDE ∧ distinct_names path_ABCDE ∧ undirected path_ABCDE) ∧
  ∃ D, (find_minimum_dominating_set brute_force_solve path_ABCDE).1 = inr D ∧
       length (nodes path_ABCDE) ≤ length D * (2 + 1).
Proof.
  split; [split_and!; [apply wf_path_ABCDE | apply distinct_names_path_ABCDE
                      | apply undirected_path_ABCDE]|].
  exact (returned_set_degree_bound brute_force_solve brute_force_solve_exact path_ABCDE 2
           wf_path_ABCDE distinct_names_path_ABCDE undirected_path_ABCDE
           path_ABCDE_degrees).
Defined.

Lemma path_ABCDE_other_neighbor :
  ∀ v, v ∈ nodes path_ABCDE → ∃ w, w ∈ neighbors path_ABCDE v ∧ w ≠ v.
Proof.
  assert (Forall (λ v, Exists (λ w, w ≠ v) (neighbors path_ABCDE v)) (nodes path_ABCDE))
    as Hall by compute_done.
  rewrite Forall_forall in Hall. intros v Hv.
  by apply Exists_exists, Hall.
Qed.

Lemma returned_set_at_most_half_path :
  (wf_graph path_ABCDE ∧ distinct_names path_ABCDE ∧ undirected path_ABCDE) ∧
  ∃ D, (find_minimum_dominating_set brute_force_solve path_ABCDE).1 = inr D ∧
       2 * length D ≤ length (nodes path_ABCDE).
Proof.
  split; [split_and!; [apply wf_path_ABCDE | apply distinct_names_path_ABCDE
                      | apply undirected_path_ABCDE]|].
  exact (returned_set_at_most_half brute_force_solve brute_force_solve_exact path_ABCDE
           wf_path_ABCDE distinct_names_path_ABCDE undirected_path_ABCDE
           path_ABCDE_other_neighbor).
Defined.

Lemma size_independent_of_solver_path :
  (wf_graph path_ABCDE ∧ distinct_names path_ABCDE) ∧
  (find_minimum_dominating_set brute_force_solve path_ABCDE).1 ≠
  (find_minimum_dominating_set brute_force_solve_last path_ABCDE).1 ∧
  ∃ D1 D2, (find_minimum_dominating_set brute_force_solve path_ABCDE).1 = inr D1 ∧
           (find_minimum_dominating_set brute_force_solve_last path_ABCDE).1 = inr D2 ∧
           length D1 = length D2.
Proof.
  split; [split; [apply wf_path_ABCDE | apply distinct_names_path_ABCDE]|].
  split.
  - rewrite path_ABCDE_brute_force, path_ABCDE_brute_force_last. discriminate.
  - exact (size_independent_of_solver brute_force_solve brute_force_solve_last path_ABCDE
             brute_force_solve_exact brute_force_solve_last_exact wf_path_ABCDE
             distinct_names_path_ABCDE).
Defined.

Lemma reweighted_rows_parse : Forall (λ r, is_Some (float_small (Weight r))) reweighted_rows.
Proof. repeat constructor; by eexists. Qed.

Lemma unit_weight_rows_parse : Forall (λ r, is_Some (float_of_1_0 (Weight r))) unit_weight_rows.
Proof. repeat constructor; by eexists. Qed.

Lemma reweighted_rows_names : NoDup (pulp_vertex_name <$> file_vertices reweighted_rows).
Proof. compute_done. Qed.

Lemma main_prints_minimum_dominating_set_reweighted :
  (Forall (λ r, is_Some (float_small (Weight r))) reweighted_rows ∧
   NoDup (pulp_vertex_name <$> file_vertices reweighted_rows)) ∧
  ∃ G D, read_graph_from_csv float_small reweighted_rows = inr G ∧
         main_dominating_set float_small brute_force_solve reweighted_rows = inr D ∧
         is_dominating_set G D ∧
         (∀ D', is_dominating_set G D' → length D ≤ length D') ∧
         (∀ v, v ∈ D → ∃ r, r ∈ reweighted_rows ∧ (v = Source r ∨ v = Target r)) ∧
         (reweighted_rows ≠ [] → 1 ≤ length D) ∧
         (Forall (λ r, Source r ≠ Target r) reweighted_rows →
            2 * length D ≤ length (nodes G)).
Proof.
  split; [split; [apply reweighted_rows_parse | apply reweighted_rows_names]|].
  exact (main_prints_minimum_dominating_set float_small brute_force_solve
           brute_force_solve_exact reweighted_rows reweighted_rows_parse
           reweighted_rows_names).
Defined.

Lemma main_ignores_weights_reweighted :
  row_ends <$> reweighted_rows = row_ends <$> unit_weight_rows ∧
  main_dominating_set float_small brute_force_solve reweighted_rows =
  main_dominating_set float_of_1_0 brute_force_solve unit_weight_rows.
Proof.
  split; [reflexivity|].
  apply (main_ignores_weights float_small float_of_1_0 brute_force_solve
           reweighted_rows unit_weight_rows);
    [reflexivity | apply reweighted_rows_parse | apply unit_weight_rows_parse].
Defined.







Lemma Weight_is_a_column : column_Weight ∈ three_columns.
Proof. compute_done. Qed.

Lemma header_without_weight_lacks_it : column_Weight ∉ header_without_weight.
Proof. compute_done. Qed.

Lemma record_A_B_1_not_blank : Exists (λ row : list string, row ≠ []) [record_A_B_1].
Proof. by left. Qed.

Lemma missing_column_raises_KeyError_weight :
  (column_Weight ∈ three_columns ∧
   (column_Weight ∉ header_without_weight) ∧
   Exists (λ row : list string, row ≠ []) [record_A_B_1]) ∧
  read_graph_from_csv_records float_small (header_without_weight :: [record_A_B_1]) =
    inl KeyError ∧
  main_dominating_set_records float_small brute_force_solve
    (header_without_weight :: [record_A_B_1]) = inl KeyError.
Proof.
  split; [split_and!; [apply Weight_is_a_column | apply header_without_weight_lacks_it
                      | apply record_A_B_1_not_blank]|].
  exact (missing_column_raises_KeyError float_small brute_force_solve column_Weight
           header_without_weight [record_A_B_1] Weight_is_a_column
           header_without_weight_lacks_it record_A_B_1_not_blank).
Defined.






End more_instances.
